(** * Schema discovery: the [discover] command and the file logger

    A shallow embedding of [protocol/discover.go] (the [RunE] of [DiscoverCmd])
    and of [logger/logger.go] ([Fatal], [Fatalf], [FileLogger]).

    [RunE] starts two goroutines per stream, a producer running
    [connector.Read] and a consumer ranging over a buffered channel, and
    joins the consumers on a [sync.WaitGroup].  The embedding is an
    interleaving semantics: a state holds the program counters and the local
    variables of every goroutine, a step runs one goroutine up to its next
    synchronisation point, and a run is a sequence of steps.  A call of
    [logger.Fatal] or [logger.Fatalf] is one step that ends the process with
    status 1.  The wait group joins the consumers only: the producers go on
    after [group.Wait()] has returned, and after [RunE] has returned, for as
    long as the process lives. *)

From Stdlib Require Import ZArith QArith Lia.
From stdpp Require Import base tactics option list strings gmap relations.
From stdpp Require Import pretty.

Set Warnings "-register-all".

Local Open Scope Z_scope.
Local Open Scope nat_scope.

(** Go [error] values, identified by their message. *)
Definition error : Type := string.

(** ** The connector, as [RunE] sees it *)

Section Discover.

(** [types.RecordData] and the property map computed by [typing.Resolve]
    are kept abstract here; [typing.Resolve] itself is a parameter of the
    command. *)
Context {RecordData Properties : Type}.
Variable Resolve : list RecordData → Properties + error.

(** A stream as returned by [connector.Discover], together with what
    [connector.Read] does for it.

    Modelled from the spec: [connector.Read] is driver code; by the spec it
    "delivers Records into the sink until exhausted or the sink signals
    closure" and "reports failure via an error result".  [source] is the
    sequence of records the read obtains, [readErr] the error it reports
    once they are delivered ([None] when the source is exhausted
    normally). *)
Record Stream := {
  Name : string;
  source : list RecordData;
  readErr : option error
}.

(** The driver behind [rawConnector]: the results of [Setup], [Check] and
    [Discover] ([None] is a nil error). *)
Record Driver := {
  Setup : option error;
  Check : option error;
  Discover : list Stream + error
}.

(** [*types.Stream]: the object [Self()] and [GetStream()] return, with the
    slot [WithJSONSchema] writes to. *)
Record types_Stream := {
  stream_name : string;
  JSONSchema : option Properties
}.

Definition GetStream (s : Stream) : types_Stream :=
  {| stream_name := Name s; JSONSchema := None |}.

Definition WithJSONSchema (properties : Properties) (s : types_Stream) : types_Stream :=
  {| stream_name := stream_name s; JSONSchema := Some properties |}.

(** ** Why a run is ended by [logger.Fatal] / [logger.Fatalf] *)

Inductive FatalCause :=
| NotADriver                                  (* line 26 *)
| SetupFailed (e : error)                     (* line 31 *)
| CheckFailed (e : error)                     (* line 36 *)
| DiscoverFailed (e : error)                  (* line 41 *)
| NoStreams                                   (* line 45 *)
| ReadFailed (name : string) (e : error)      (* line 61 *)
| ResolveFailed (e : error).                  (* line 78 *)

(** ** One stream's pair of goroutines *)

(** [recordsPerStream := 100], also the capacity of the channel. *)
Definition recordsPerStream : nat := 100.

(** Producer goroutine (lines 58-66): inside [connector.Read], at
    [safego.Close(channel)], finished. *)
Inductive ProducerPc := PRead | PClose | PDone.

(** Consumer goroutine (lines 55-86): at the head of
    [for record := range channel], at [if count >= recordsPerStream], at
    [typing.Resolve], at [WithJSONSchema], at [group.Done()], finished. *)
Inductive ConsumerPc :=
| CRange | CCheck | CResolve | CAttach (properties : Properties) | CGroupDone | CExit.

Record Pipeline := mkPipeline {
  stream : Stream;                 (* stream := stream_ *)
  unread : list RecordData;        (* what connector.Read has still to deliver *)
  channel : list RecordData;       (* buffered contents of the channel, oldest first *)
  closed : bool;                   (* the channel has been closed *)
  objects : list RecordData;       (* objects := []types.RecordData{} *)
  count : nat;                     (* count := 0 *)
  producer : ProducerPc;
  consumer : ConsumerPc
}.

Definition spawn (s : Stream) : Pipeline :=
  mkPipeline s (source s) [] false [] 0 PRead CRange.

(** What a goroutine's step does outside its own pipeline. *)
Inductive Effect :=
| Quiet
| Attach (properties : Properties)   (* stream.Self().WithJSONSchema(...) *)
| GroupDone                          (* group.Done() *)
| Fatal (cause : FatalCause).        (* logger.Fatal / logger.Fatalf *)

(** Modelled from the spec: [safego.Close] is not part of the sources; it
    closes the channel and tolerates a channel that is closed already (the
    consumer calls it on every record from the [recordsPerStream]-th on,
    and the producer calls it after an early stop). *)
Definition safego_Close (p : Pipeline) : Pipeline :=
  mkPipeline (stream p) (unread p) (channel p) true (objects p) (count p)
             (producer p) (consumer p).

Definition at_producer (pc : ProducerPc) (p : Pipeline) : Pipeline :=
  mkPipeline (stream p) (unread p) (channel p) (closed p) (objects p) (count p)
             pc (consumer p).

Definition at_consumer (pc : ConsumerPc) (p : Pipeline) : Pipeline :=
  mkPipeline (stream p) (unread p) (channel p) (closed p) (objects p) (count p)
             (producer p) pc.

(** [channel <- r] inside [connector.Read]. *)
Definition send (r : RecordData) (rest : list RecordData) (p : Pipeline) : Pipeline :=
  mkPipeline (stream p) rest (channel p ++ [r]) (closed p) (objects p) (count p)
             (producer p) (consumer p).

(** One iteration of the range loop up to the test: receive [r], then
    [count++] and [objects = append(objects, record.Data)]. *)
Definition receive (r : RecordData) (rest : list RecordData) (p : Pipeline) : Pipeline :=
  mkPipeline (stream p) (unread p) rest (closed p) (objects p ++ [r]) (S (count p))
             (producer p) CCheck.

(** The producer goroutine, lines 58-66.  A send blocks while the channel
    is full; on a closed channel the read stops early and returns nil. *)
Definition produce (p : Pipeline) : option (Pipeline * Effect) :=
  match producer p with
  | PRead =>
      match unread p with
      | r :: rest =>
          if closed p then Some (at_producer PClose p, Quiet)
          else if decide (length (channel p) < recordsPerStream)
               then Some (send r rest p, Quiet)
               else None
      | [] =>
          match readErr (stream p) with
          | Some e => Some (p, Fatal (ReadFailed (Name (stream p)) e))
          | None => Some (at_producer PClose p, Quiet)
          end
      end
  | PClose => Some (at_producer PDone (safego_Close p), Quiet)
  | PDone => None
  end.

(** The consumer goroutine, lines 68-85.  The range loop receives what the
    channel holds, also after the channel has been closed, and ends when
    the channel is closed and empty; it blocks on an open empty channel. *)
Definition consume (p : Pipeline) : option (Pipeline * Effect) :=
  match consumer p with
  | CRange =>
      match channel p with
      | r :: rest => Some (receive r rest p, Quiet)
      | [] => if closed p then Some (at_consumer CResolve p, Quiet) else None
      end
  | CCheck =>
      if decide (recordsPerStream ≤ count p)
      then Some (at_consumer CRange (safego_Close p), Quiet)
      else Some (at_consumer CRange p, Quiet)
  | CResolve =>
      match Resolve (objects p) with
      | inl properties => Some (at_consumer (CAttach properties) p, Quiet)
      | inr err => Some (p, Fatal (ResolveFailed err))
      end
  | CAttach properties => Some (at_consumer CGroupDone p, Attach properties)
  | CGroupDone => Some (at_consumer CExit p, GroupDone)
  | CExit => None
  end.

(** ** The whole command *)

Inductive Status :=
| Running
| Returned (err : option error)             (* RunE has returned *)
| Exited (code : Z) (cause : FatalCause).   (* os.Exit(code) *)

Record State := mkState {
  status : Status;
  todo : list Stream;                 (* streams the spawning loop has still to visit *)
  pipes : list Pipeline;              (* the pipelines started so far, in order *)
  streams : list types_Stream;        (* the stream objects behind [streams] *)
  group : Z;                          (* counter of the sync.WaitGroup *)
  barrier : bool;                     (* group.Wait() has returned *)
  catalog : option (list types_Stream)  (* what logger.LogCatalog was given *)
}.

(** [logger.Fatal] and [logger.Fatalf], logger.go lines 52-61: log, then
    [os.Exit(1)]. *)
Definition logger_Fatal (cause : FatalCause) (s : State) : State :=
  mkState (Exited 1 cause) (todo s) (pipes s) (streams s) (group s) (barrier s)
          (catalog s).

Definition halted (cause : FatalCause) : State :=
  logger_Fatal cause (mkState Running [] [] [] 0 false None).

(** Lines 24-46: everything before the spawning loop. *)
Definition start (rawConnector : option Driver) : State :=
  match rawConnector with
  | None => halted NotADriver
  | Some connector =>
      match Setup connector with
      | Some err => halted (SetupFailed err)
      | None =>
          match Check connector with
          | Some err => halted (CheckFailed err)
          | None =>
              match Discover connector with
              | inr err => halted (DiscoverFailed err)
              | inl ss =>
                  if decide (length ss = 0) then halted NoStreams
                  else mkState Running ss [] (GetStream <$> ss) 0 false None
              end
          end
      end
  end.

(** The main goroutine, lines 50-98, one step at a time: one loop
    iteration ([group.Add(1)] and [go func]); after the loop, the return of
    [group.Wait()], which blocks while the counter is not zero; then the
    collection of [unwrappedStreams] and [logger.LogCatalog]; then
    [return nil]. *)
Definition main_step (s : State) : option State :=
  match todo s with
  | stream_ :: rest =>
      Some (mkState Running rest (pipes s ++ [spawn stream_]) (streams s)
                    (group s + 1)%Z (barrier s) (catalog s))
  | [] =>
      if barrier s
      then match catalog s with
           | None =>
               let unwrappedStreams := streams s in
               Some (mkState Running [] (pipes s) (streams s) (group s) true
                             (Some unwrappedStreams))
           | Some _ =>
               Some (mkState (Returned None) [] (pipes s) (streams s) (group s) true
                             (catalog s))
           end
      else if decide (group s = 0%Z)
           then Some (mkState Running [] (pipes s) (streams s) (group s) true
                              (catalog s))
           else None
  end.

Definition apply_effect (i : nat) (p : Pipeline) (eff : Effect) (s : State) : State :=
  match eff with
  | Quiet =>
      mkState (status s) (todo s) (<[i := p]> (pipes s)) (streams s) (group s)
              (barrier s) (catalog s)
  | Attach properties =>
      mkState (status s) (todo s) (<[i := p]> (pipes s))
              (alter (WithJSONSchema properties) i (streams s)) (group s)
              (barrier s) (catalog s)
  | GroupDone =>
      mkState (status s) (todo s) (<[i := p]> (pipes s)) (streams s)
              (group s - 1)%Z (barrier s) (catalog s)
  | Fatal cause => logger_Fatal cause s
  end.

Inductive Action :=
| ActMain
| ActProducer (i : nat)
| ActConsumer (i : nat).

Definition goroutine (a : Action) : option (nat * (Pipeline → option (Pipeline * Effect))) :=
  match a with
  | ActMain => None
  | ActProducer i => Some (i, produce)
  | ActConsumer i => Some (i, consume)
  end.

(** One scheduling decision; [None] when the chosen goroutine is blocked,
    finished or not started, or when the process has exited.  The main
    goroutine moves until [RunE] has returned; the goroutines of the
    pipelines move as long as the process has not exited, whether [RunE]
    has returned or not. *)
Definition exec (a : Action) (s : State) : option State :=
  match status s, goroutine a with
  | Exited _ _, _ => None
  | Running, None => main_step s
  | Returned _, None => None
  | _, Some (i, f) =>
      match pipes s !! i with
      | Some p =>
          match f p with
          | Some (p', eff) => Some (apply_effect i p' eff s)
          | None => None
          end
      | None => None
      end
  end.

Definition step (s s' : State) : Prop := ∃ a, exec a s = Some s'.

(** Running a schedule from a state, as far as it goes. *)
Fixpoint run (sched : list Action) (s : State) : option State :=
  match sched with
  | [] => Some s
  | a :: sched' =>
      match exec a s with
      | Some s' => run sched' s'
      | None => None
      end
  end.

Definition reachable (rawConnector : option Driver) (s : State) : Prop :=
  rtc step (start rawConnector) s.

(** ** What holds of one pipeline at every moment *)

(** The consumer has written the stream's schema. *)
Definition attached (p : Pipeline) : bool :=
  match consumer p with CGroupDone | CExit => true | _ => false end.

(** The consumer is still in its range loop. *)
Definition sampling (p : Pipeline) : Prop :=
  consumer p = CRange ∨ consumer p = CCheck.

Record pipe_inv (p : Pipeline) : Prop := {
  inv_count : count p = length (objects p);
  inv_split : objects p ++ channel p ++ unread p = source (stream p);
  inv_cap : length (channel p) ≤ recordsPerStream;
  inv_bound : count p + length (channel p) ≤ 2 * recordsPerStream;
  inv_open_count : closed p = false → count p ≤ recordsPerStream;
  inv_open_range : closed p = false → consumer p = CRange → count p < recordsPerStream;
  inv_closed :
    closed p = true →
    (unread p = [] ∧ readErr (stream p) = None) ∨ recordsPerStream ≤ count p;
  inv_left_read :
    producer p ≠ PRead →
    (unread p = [] ∧ readErr (stream p) = None) ∨ closed p = true;
  inv_done : producer p = PDone → closed p = true;
  inv_drained : ¬ sampling p → closed p = true ∧ channel p = [];
  inv_resolved :
    ∀ properties, consumer p = CAttach properties → Resolve (objects p) = inl properties;
  inv_attached :
    attached p = true → ∃ properties, Resolve (objects p) = inl properties
}.

(** ** What holds of the whole command at every moment *)

(** The consumer has called [group.Done()]. *)
Definition finished (p : Pipeline) : bool :=
  match consumer p with CExit => true | _ => false end.

(** The stream object of a pipeline, as its consumer has left it. *)
Definition slot_of (p : Pipeline) : types_Stream :=
  {| stream_name := Name (stream p);
     JSONSchema :=
       if attached p
       then match Resolve (objects p) with
            | inl properties => Some properties
            | inr _ => None
            end
       else None |}.

Definition total (f : Pipeline → Z) (ps : list Pipeline) : Z :=
  foldr (λ p acc, (f p + acc)%Z) 0%Z ps.

(** [Add(1)] minus [Done()]. *)
Definition unfinished (p : Pipeline) : Z :=
  if finished p then 0%Z else 1%Z.

(** What is known of the goroutine that ended the process: the read of a
    stream had failed at the end of its records, or the sample of a stream
    had been rejected; with the other causes no pipeline was started. *)
Definition fatal_ok (cause : FatalCause) (s : State) : Prop :=
  match cause with
  | ReadFailed name e =>
      ∃ i p, pipes s !! i = Some p ∧ Name (stream p) = name ∧
             readErr (stream p) = Some e ∧ producer p = PRead
  | ResolveFailed e =>
      ∃ i p, pipes s !! i = Some p ∧ consumer p = CResolve ∧
             Resolve (objects p) = inr e
  | _ => pipes s = [] ∧ catalog s = None
  end.

Record state_inv (ss : list Stream) (s : State) : Prop := {
  sinv_pipes : Forall pipe_inv (pipes s);
  sinv_order : (stream <$> pipes s) ++ todo s = ss;
  sinv_streams : streams s = (slot_of <$> pipes s) ++ (GetStream <$> todo s);
  sinv_group : group s = total unfinished (pipes s);
  sinv_barrier : barrier s = true → todo s = [] ∧ group s = 0%Z;
  sinv_catalog : ∀ c, catalog s = Some c → barrier s = true ∧ c = streams s;
  sinv_status :
    match status s with
    | Running => True
    | Returned err => err = None ∧ catalog s = Some (streams s)
    | Exited code cause => code = 1%Z ∧ fatal_ok cause s
    end
}.

(** What one step of a goroutine changes, by its effect. *)
Definition effect_ok (p p' : Pipeline) (eff : Effect) : Prop :=
  match eff with
  | Quiet => slot_of p' = slot_of p ∧ unfinished p' = unfinished p
  | Attach properties =>
      slot_of p' = WithJSONSchema properties (slot_of p) ∧ unfinished p' = unfinished p
  | GroupDone => slot_of p' = slot_of p ∧ unfinished p = 1%Z ∧ unfinished p' = 0%Z
  | Fatal _ => p' = p
  end.

(** No stream's read fails and [typing.Resolve] accepts every sample that
    can be taken of a stream. *)
Definition no_failure (ss : list Stream) : Prop :=
  ∀ st, st ∈ ss →
    readErr st = None ∧
    ∀ sample, sample `prefix_of` source st → ∃ properties, Resolve sample = inl properties.

(** The state a schedule leads to (the initial state if the schedule
    cannot be run). *)
Definition after (rawConnector : option Driver) (sched : list Action) : State :=
  default (start rawConnector) (run sched (start rawConnector)).

(** C8 as the specification states it: after a failure, the goroutines of
    a pipeline that is still in flight can go on. *)
Definition siblings_may_continue (rawConnector : option Driver) : Prop :=
  ∀ s i p code cause,
    reachable rawConnector s → status s = Exited code cause →
    pipes s !! i = Some p → finished p = false →
    ∃ a s', (a = ActProducer i ∨ a = ActConsumer i) ∧ exec a s = Some s'.

(** C2 as the specification states it: a failure prevents the catalog, so
    when the process has exited through [logger.Fatal] or [logger.Fatalf],
    no catalog has been logged. *)
Definition failure_prevents_catalog (rawConnector : option Driver) : Prop :=
  ∀ s code cause,
    reachable rawConnector s → status s = Exited code cause → catalog s = None.

(** ** A bound on the steps that are left *)

Definition producer_rank (pc : ProducerPc) : Z :=
  match pc with PRead => 2%Z | PClose => 1%Z | PDone => 0%Z end.

Definition consumer_rank (pc : ConsumerPc) : Z :=
  match pc with
  | CCheck => 5%Z | CRange => 4%Z | CResolve => 3%Z | CAttach _ => 2%Z
  | CGroupDone => 1%Z | CExit => 0%Z
  end.

Definition weight (p : Pipeline) : Z :=
  (3 * Z.of_nat (length (unread p)) + 2 * Z.of_nat (length (channel p))
   + producer_rank (producer p) + consumer_rank (consumer p))%Z.

(** The steps the main goroutine has left after its loop: the return of
    [group.Wait()], [logger.LogCatalog] and [return nil]. *)
Definition main_rank (s : State) : Z :=
  match status s with
  | Running =>
      if barrier s then match catalog s with None => 2%Z | Some _ => 1%Z end
      else 3%Z
  | _ => 0%Z
  end.

Definition measure (s : State) : Z :=
  match status s with
  | Exited _ _ => 0%Z
  | _ =>
      (total weight (pipes s) + total (λ p, weight p + 1) (spawn <$> todo s)
       + main_rank s)%Z
  end.

End Discover.

Arguments recordsPerStream : simpl never.

(** ** Schema resolution *)

(** [typing.Resolve] is not part of the sources.  The definitions of this
    part follow section 4.3 of the specification, rule by rule. *)

(** A record value: "null, boolean, integer, floating number, string,
    ordered sequence, or field→value mapping".  A floating number is kept
    as the rational it denotes. *)
Inductive Value :=
| VNull
| VBool (b : bool)
| VInt (n : Z)
| VNum (x : Q)
| VStr (s : string)
| VArr (elems : list Value)
| VObj (fields : list (string * Value)).

Inductive Kind := KNull | KBoolean | KInteger | KNumber | KString | KArray | KObject.

#[global] Instance Kind_eq_dec : EqDecision Kind.
Proof. solve_decision. Defined.

(** "Type Descriptor: one of {null, boolean, integer, number, string,
    array(elementType), object(PropertySchema), union(set of Kinds)};
    carries a nullable flag."  A PropertySchema keeps its fields in
    first-seen order. *)
Inductive TypeDescriptor :=
| TD (shape : Shape) (nullable : bool)
with Shape :=
| SNull | SBoolean | SInteger | SNumber | SString
| SArray (elem : TypeDescriptor)
| SObject (props : list (string * TypeDescriptor))
| SUnion (kinds : list Kind).

Definition PropertySchema : Type := list (string * TypeDescriptor).

Definition has_fraction (x : Q) : bool :=
  negb (Qnum x mod Zpos (Qden x) =? 0)%Z.

(** Rule 1: the kind of one occurrence. *)
Definition kind_of (v : Value) : Kind :=
  match v with
  | VNull => KNull
  | VBool _ => KBoolean
  | VInt _ => KInteger
  | VNum x => if has_fraction x then KNumber else KInteger
  | VStr _ => KString
  | VArr _ => KArray
  | VObj _ => KObject
  end.

(** Rule 2: an occurrence that is absent ([None]) or null. *)
Definition missing (o : option Value) : bool :=
  match o with
  | None | Some VNull => true
  | Some _ => false
  end.

Definition present (occ : list (option Value)) : list Value :=
  omap (λ o, match o with Some VNull => None | _ => o end) occ.

(** Rule 4: integer occurrences next to number occurrences count as
    number. *)
Definition widen_kind (k : Kind) : Kind :=
  match k with KInteger => KNumber | _ => k end.

Definition widen (ks : list Kind) : list Kind :=
  if bool_decide (KNumber ∈ ks) then widen_kind <$> ks else ks.

(** The distinct elements of a list, ordered by first appearance. *)
Fixpoint first_seen {A} `{EqDecision A} (seen l : list A) : list A :=
  match l with
  | [] => []
  | x :: l' =>
      if decide (x ∈ seen) then first_seen seen l'
      else x :: first_seen (x :: seen) l'
  end.

Definition field_of (name : string) (v : Value) : option Value :=
  match v with
  | VObj fields => (λ hit, hit.2.2) <$> list_find (λ kv, kv.1 = name) fields
  | _ => None
  end.

Definition names_of (v : Value) : list string :=
  match v with
  | VObj fields => fst <$> fields
  | _ => []
  end.

Definition elems_of (v : Value) : list Value :=
  match v with
  | VArr elems => elems
  | _ => []
  end.

(** Rule 6, and the top level: one descriptor per field name, over the
    field's occurrences in all the given objects. *)
Definition resolve_props (resolve : list (option Value) → TypeDescriptor)
    (objs : list Value) : PropertySchema :=
  (λ name, (name, resolve ((field_of name) <$> objs)))
    <$> first_seen [] (objs ≫= names_of).

(** Rules 1 to 7 for the occurrences of one field; [fuel] bounds the
    nesting that is followed. *)
Fixpoint resolve_field (fuel : nat) (occ : list (option Value)) : TypeDescriptor :=
  let vals := present occ in
  let kinds := first_seen [] (widen (kind_of <$> vals)) in
  TD match kinds with
     | [] => SNull
     | [KNull] => SNull
     | [KBoolean] => SBoolean
     | [KInteger] => SInteger
     | [KNumber] => SNumber
     | [KString] => SString
     | [KArray] =>
         match fuel with
         | 0 => SArray (TD SNull false)
         | S fuel' => SArray (resolve_field fuel' (Some <$> (vals ≫= elems_of)))
         end
     | [KObject] =>
         match fuel with
         | 0 => SObject []
         | S fuel' => SObject (resolve_props (resolve_field fuel') vals)
         end
     | _ => SUnion kinds
     end
     (existsb missing occ).

Fixpoint depth (v : Value) : nat :=
  match v with
  | VArr elems => S (foldr (λ x d, depth x `max` d) 0 elems)
  | VObj fields => S (foldr (λ kv d, depth kv.2 `max` d) 0 fields)
  | _ => 0
  end.

Definition is_object (v : Value) : bool :=
  match v with VObj _ => true | _ => false end.

(** Modelled from the spec: [typing.Resolve], the Schema Resolver of
    section 4.3.  "Input: one stream's SampleSet.  Output: PropertySchema,
    or a malformed-record error."  It "fails if a top-level sampled value is
    not a field→value mapping". *)
Definition Resolve (sample : list Value) : PropertySchema + error :=
  if forallb is_object sample
  then inl (resolve_props (resolve_field (foldr (λ v d, depth v `max` d) 0 sample)) sample)
  else inr "malformed record: not a field→value mapping"%string.

(** The field [name] of a resolved schema. *)
Definition property (name : string) (props : PropertySchema) : option TypeDescriptor :=
  (λ hit, hit.2.2) <$> list_find (λ kv, kv.1 = name) props.

(** ** Example connectors and schedules *)

Definition record_a (v : Value) : Value := VObj [("a"%string, v)].

Definition stream_ok : @Stream Value :=
  {| Name := "ok"; source := [record_a (VInt 1); record_a (VNum (3 # 2))];
     readErr := None |}.

Definition stream_opt : @Stream Value :=
  {| Name := "opt"; source := [record_a (VStr "x"); VObj []]; readErr := None |}.

Definition stream_bad : @Stream Value :=
  {| Name := "bad"; source := [record_a (VStr "x")];
     readErr := Some "connection reset"%string |}.

(** Twice [recordsPerStream] records. *)
Definition stream_big : @Stream Value :=
  {| Name := "big"; source := (λ k, record_a (VInt (Z.of_nat k))) <$> seq 0 200;
     readErr := None |}.

(** [recordsPerStream] records, then the read fails. *)
Definition stream_late : @Stream Value :=
  {| Name := "late"; source := (λ k, record_a (VInt (Z.of_nat k))) <$> seq 0 100;
     readErr := Some "connection reset"%string |}.

Definition driver_of (ss : list (@Stream Value)) : option (@Driver Value) :=
  Some {| Setup := None; Check := None; Discover := inl ss |}.

(** A connector whose [Setup] fails. *)
Definition driver_setup_fails : option (@Driver Value) :=
  Some {| Setup := Some "bad credentials"%string; Check := None;
          Discover := inl [stream_ok] |}.

(** Pipeline [i] samples a source of [n] records that is shorter than the
    channel: the producer delivers everything and closes, then the consumer
    drains the channel and leaves its loop. *)
Definition sample_all (i n : nat) : list Action :=
  replicate (n + 2) (ActProducer i) ++ replicate (2 * n + 1) (ActConsumer i).

(** The consumer of pipeline [i] resolves, attaches the schema and calls
    [group.Done()]. *)
Definition finish (i : nat) : list Action := replicate 3 (ActConsumer i).

(** The producer of pipeline [i] keeps the channel full: it fills it, then
    sends one more record between each receive and the test that follows
    it; the consumer drains what is left after the close. *)
Definition overrun (i : nat) : list Action :=
  replicate recordsPerStream (ActProducer i)
  ++ mjoin (replicate recordsPerStream [ActConsumer i; ActProducer i; ActConsumer i])
  ++ replicate (2 * recordsPerStream + 1) (ActConsumer i).

(** Two streams are started; the first is sampled, resolved and done;
    then the read of the second delivers its record and fails. *)
Definition ok_done_then_bad_fails : list Action :=
  [ActMain; ActMain] ++ sample_all 0 2 ++ finish 0 ++ [ActProducer 1; ActProducer 1].

(** Two streams are started; the first has one record in its channel when
    the read of the second fails. *)
Definition bad_fails_ok_in_flight : list Action :=
  [ActMain; ActMain; ActProducer 0; ActProducer 1; ActProducer 1].

(** Two streams are started; the first has one record in its channel and
    the second has delivered its record: its read is about to fail. *)
Definition ok_in_flight_bad_read : list Action :=
  [ActMain; ActMain; ActProducer 0; ActProducer 1].

(** The producer delivers the [recordsPerStream] records of the only
    stream; the consumer receives them, closes the channel at
    [count = recordsPerStream], leaves its loop, resolves, attaches the
    schema and calls [group.Done()]; the main goroutine passes the barrier
    and logs the catalog; then the read fails. *)
Definition late_read_failure : list Action :=
  [ActMain] ++ replicate recordsPerStream (ActProducer 0)
  ++ replicate (2 * recordsPerStream + 1) (ActConsumer 0) ++ finish 0
  ++ [ActMain; ActMain; ActProducer 0].

(** Two streams are started and sampled one after the other, then the
    main goroutine passes the barrier, logs the catalog and returns. *)
Definition both_done : list Action :=
  [ActMain; ActMain] ++ sample_all 0 2 ++ finish 0 ++ sample_all 1 2 ++ finish 1
  ++ [ActMain; ActMain; ActMain].

(** ** The file logger *)

Section FileLogger.

(** [json.Marshal] and [filepath.Join] are library functions and stay
    parameters; [None]/[inl] stand for a nil error. *)
Context {Content : Type}.
Variable json_Marshal : Content → string + error.
Variable filepath_Join : string → string → string.

(** What the operating system answers to [file.Write]: everything written,
    or an error after the first [n] bytes. *)
Inductive WriteResult :=
| WriteAll
| WriteFailed (n : nat) (err : error).

(** What the operating system answers to the calls of one [FileLogger]. *)
Record Os := {
  OpenFile_err : option error;
  Write_result : WriteResult
}.

(** [FileLogger], logger.go lines 97-125.  [CONFIG_FOLDER] is
    [viper.GetString("CONFIG_FOLDER")]; the file system maps paths to file
    contents.  Opening with [O_CREATE|O_WRONLY|O_TRUNC] leaves the file
    present and empty. *)
Definition FileLogger (CONFIG_FOLDER : string) (os : Os) (fs : gmap string string)
    (content : Content) (fileName fileExtension : string)
  : gmap string string * option error :=
  let filePath := CONFIG_FOLDER in
  if decide (filePath = "")%string
  then (fs, Some "config folder is not set"%string)
  else
    match json_Marshal content with
    | inr err => (fs, Some ("failed to marshal content: " +:+ err))
    | inl contentBytes =>
        let fullPath := filepath_Join filePath (fileName +:+ fileExtension) in
        match OpenFile_err os with
        | Some err => (fs, Some ("failed to create or open file: " +:+ err))
        | None =>
            let truncated := <[fullPath := ""%string]> fs in
            match Write_result os with
            | WriteFailed n err =>
                (<[fullPath := String.substring 0 n contentBytes]> truncated,
                 Some ("failed to write data to file: " +:+ err))
            | WriteAll => (<[fullPath := contentBytes]> truncated, None)
            end
        end
    end.

End FileLogger.

(** An encoder and a path join for the example runs of [FileLogger]: a
    content is a string that is already encoded, or a value that cannot be
    encoded. *)
Definition example_Marshal (content : option string) : string + error :=
  match content with
  | Some text => inl text
  | None => inr "unsupported value"%string
  end.

Definition example_Join (dir name : string) : string := dir +:+ "/" +:+ name.

(** One stream is started; its producer has sent both records and its
    consumer has received the first. *)
Definition one_sampled_one_waiting : list Action :=
  [ActMain; ActProducer 0; ActProducer 0; ActConsumer 0].

(** ** A bound on the length of a run *)

(** Three steps of the main goroutine after its loop (the return of
    [group.Wait()], [logger.LogCatalog], [return nil]), and per stream one
    step to start it, three per record (send, receive, test) and six for
    the ends of the two goroutines. *)
Definition step_bound {RecordData : Type} (ss : list (@Stream RecordData)) : nat :=
  3 + sum_list ((λ st, 3 * length (source st) + 7) <$> ss).

(** ** The statistics logger *)

(** Log levels of the package-level zerolog logger, and what it is given:
    a level and a message. *)
Inductive Level := DebugLevel | InfoLevel | WarnLevel | ErrorLevel | FatalLevel.

Definition LogEntry : Type := Level * string.

(** A value of the [stats] map: an [int64] or a formatted text. *)
Inductive StatValue :=
| StatInt (n : Z)
| StatText (text : string).

(** What one tick of the ticker reads from its environment: the three
    results of [statsFunc()], [memStats.HeapInuse], and the answers of the
    operating system to the [FileLogger] call.  Floating-point values are
    not computed here: the outcome of [speed > 0] and the three formatted
    texts are read from the tick as well. *)
Record Tick := {
  syncedRecords : Z;
  runningThreads : Z;
  recordsToSync : Z;
  HeapInuse : N;
  speed_positive : bool;     (* speed > 0 *)
  speed_text : string;       (* fmt.Sprintf("%.2f rps", speed) *)
  elapsed_text : string;     (* fmt.Sprintf("%.2f", timeElapsed) *)
  remaining_text : string;   (* fmt.Sprintf("%.2f s", float64(remainingRecords)/speed) *)
  tick_os : Os
}.

(** What the [select] of the monitoring goroutine receives. *)
Inductive MonitorEvent :=
| CtxDone                 (* case <-ctx.Done() *)
| TickerC (t : Tick).     (* case <-ticker.C *)

(** The monitoring goroutine is in its loop, has returned, or has ended the
    process. *)
Inductive MonitorStatus := Monitoring | Stopped | ProcessExited (code : Z).

Record Monitor := mkMonitor {
  mon_status : MonitorStatus;
  mon_files : gmap string string;
  mon_log : list LogEntry
}.

(** An [int64] result: the integer modulo 2^64, in the signed range. *)
Definition int64 (z : Z) : Z := ((z + 2 ^ 63) mod 2 ^ 64 - 2 ^ 63)%Z.

Section StatsLogger.

Variable json_Marshal : gmap string StatValue → string + error.
Variable filepath_Join : string → string → string.
Variable CONFIG_FOLDER : string.

(** The [stats] map of one tick, logger.go lines 138-155. *)
Definition stats_of (t : Tick) : gmap string StatValue :=
  let remainingRecords := int64 (recordsToSync t - syncedRecords t) in
  let estimatedSeconds :=
    if speed_positive t && (0 <=? remainingRecords)%Z
    then remaining_text t
    else "Not Determined"%string in
  <["Estimated Remaining Time"%string := StatText estimatedSeconds]>
  (<["Seconds Elapsed"%string := StatText (elapsed_text t)]>
  (<["Speed"%string := StatText (speed_text t)]>
  (<["Memory"%string := StatText (pretty (HeapInuse t / (1024 * 1024))%N +:+ " mb")]>
  (<["Synced Records"%string := StatInt (syncedRecords t)]>
  (<["Running Threads"%string := StatInt (runningThreads t)]> ∅))))).

(** One round of the [select], logger.go lines 133-159: on [ctx.Done()],
    [Info("Monitoring stopped")] and return; on a tick, write the stats
    with [FileLogger] and, if that fails, [Fatalf], which logs and exits
    with status 1.  A goroutine that has returned, or a process that has
    exited, does nothing. *)
Definition monitor_step (ev : MonitorEvent) (m : Monitor) : Monitor :=
  match mon_status m with
  | Monitoring =>
      match ev with
      | CtxDone =>
          mkMonitor Stopped (mon_files m)
                    (mon_log m ++ [(InfoLevel, "Monitoring stopped"%string)])
      | TickerC t =>
          let result :=
            FileLogger json_Marshal filepath_Join CONFIG_FOLDER (tick_os t)
                       (mon_files m) (stats_of t) "stats" ".json" in
          match result.2 with
          | Some err =>
              mkMonitor (ProcessExited 1) result.1
                        (mon_log m ++ [(FatalLevel, "failed to write stats in file: " +:+ err)])
          | None => mkMonitor Monitoring result.1 (mon_log m)
          end
      end
  | _ => m
  end.

Fixpoint monitor (evs : list MonitorEvent) (m : Monitor) : Monitor :=
  match evs with
  | [] => m
  | ev :: evs' => monitor evs' (monitor_step ev m)
  end.

(** A tick whose [FileLogger] call meets no failure. *)
Definition tick_succeeds (t : Tick) : Prop :=
  OpenFile_err (tick_os t) = None ∧ Write_result (tick_os t) = WriteAll ∧
  ∃ contentBytes, json_Marshal (stats_of t) = inl contentBytes.

End StatsLogger.

(** An encoder of the [stats] map for the example runs: the synced records
    in decimal. *)
Definition example_stats_Marshal (stats : gmap string StatValue) : string + error :=
  match stats !! "Synced Records"%string with
  | Some (StatInt n) => inl (pretty n)
  | _ => inr "unsupported value"%string
  end.

Definition example_tick (synced : Z) : Tick :=
  {| syncedRecords := synced; runningThreads := 2; recordsToSync := 10;
     HeapInuse := 3145728; speed_positive := true; speed_text := "1.00 rps";
     elapsed_text := "2.00"; remaining_text := "5.00 s";
     tick_os := {| OpenFile_err := None; Write_result := WriteAll |} |}.

(** ** The name of the log file *)

(** The fields of [time.Now().UTC()] that [Init] prints. *)
Record Time := {
  Year : N; Month : N; Day : N; Hour : N; Minute : N; Second : N
}.

(** The verb [%02d] on a number that is not negative: at least two digits,
    padded with a zero. *)
Definition pad2 (n : N) : string :=
  if decide (n < 10)%N then "0" +:+ pretty n else pretty n.

(** [fmt.Sprintf("%d-%02d-%02d_%02d-%02d-%02d", ...)], logger.go line 167. *)
Definition timestamp (t : Time) : string :=
  pretty (Year t) +:+ "-" +:+ pad2 (Month t) +:+ "-" +:+ pad2 (Day t) +:+ "_"
  +:+ pad2 (Hour t) +:+ "-" +:+ pad2 (Minute t) +:+ "-" +:+ pad2 (Second t).

(** The [Filename] of the rotating log file, logger.go line 169. *)
Definition log_Filename (CONFIG_FOLDER : string) (t : Time) : string :=
  CONFIG_FOLDER +:+ "/logs/sync_" +:+ timestamp t +:+ "/olake.log".

(** The fields other than the year have at most two digits. *)
Definition two_digit_fields (t : Time) : Prop :=
  (Month t < 100 ∧ Day t < 100 ∧ Hour t < 100 ∧ Minute t < 100 ∧ Second t < 100)%N.

Definition example_time : Time :=
  {| Year := 2024; Month := 3; Day := 9; Hour := 14; Minute := 5; Second := 0 |}.

(** * Properties of the discover command *)

Section DiscoverProofs.

Context {RecordData Properties : Type}.
Variable Resolve : list RecordData → Properties + error.

Local Abbreviation Pipeline := (@Pipeline RecordData Properties).
Local Abbreviation State := (@State RecordData Properties).
Local Abbreviation Stream := (@Stream RecordData).
Local Abbreviation Driver := (@Driver RecordData).
Local Abbreviation consume := (consume Resolve).
Local Abbreviation start := (@start RecordData Properties).
Local Abbreviation goroutine := (goroutine Resolve).
Local Abbreviation exec := (exec Resolve).
Local Abbreviation step := (step Resolve).
Local Abbreviation run := (run Resolve).
Local Abbreviation reachable := (reachable Resolve).

Implicit Types (p q : Pipeline) (ps qs : list Pipeline) (s : State).

Local Abbreviation pipe_inv := (pipe_inv Resolve).
Local Abbreviation state_inv := (state_inv Resolve).
Local Abbreviation slot_of := (slot_of Resolve).

Lemma recordsPerStream_eq : recordsPerStream = 100.
Proof. reflexivity. Qed.

(** ** The invariant of one pipeline *)

Ltac inv_finish :=
  intros; unfold sampling in *; simpl in *; rewrite ?length_app in *; simpl in *;
  try done; try lia; try congruence; try (by eauto);
  try (rewrite <- ?app_assoc; simpl; done);
  try (intuition (first [congruence | lia])).

Lemma spawn_inv (st : Stream) : pipe_inv (spawn st).
Proof.
  pose proof recordsPerStream_eq.
  split; inv_finish.
Qed.

Lemma produce_inv p p' eff :
  produce p = Some (p', eff) → pipe_inv p → pipe_inv p'.
Proof.
  pose proof recordsPerStream_eq as Hcap.
  intros Hstep Hinv. unfold produce in Hstep.
  repeat case_match; simplify_eq; try done.
  all: destruct Hinv, p as [st un ch cl ob cn pp cp]; simpl in *; subst.
  all: split; simpl; inv_finish.
Qed.

Lemma consume_inv p p' eff :
  consume p = Some (p', eff) → pipe_inv p → pipe_inv p'.
Proof.
  pose proof recordsPerStream_eq as Hcap.
  intros Hstep Hinv. unfold consume in Hstep.
  repeat case_match; simplify_eq; try done.
  all: destruct Hinv, p as [st un ch cl ob cn pp cp]; simpl in *; subst.
  all: split; simpl; inv_finish.
Qed.

(** ** What one step of a goroutine changes *)

Local Abbreviation effect_ok := (effect_ok Resolve).
Local Abbreviation no_failure := (no_failure Resolve).
Local Abbreviation after := (after Resolve).

Lemma produce_effect p p' eff :
  produce p = Some (p', eff) →
  stream p' = stream p ∧ objects p' = objects p ∧ consumer p' = consumer p ∧
  effect_ok p p' eff ∧ ((∃ c, eff = Fatal c) ∨ (weight p' < weight p)%Z).
Proof.
  intros Hstep. destruct p as [st un ch cl ob cn pp cp].
  unfold produce in Hstep; simpl in *.
  repeat case_match; simplify_eq; try done.
  all: repeat split; try done.
  all: try (by left; eauto).
  all: right; unfold weight; simpl; rewrite ?length_app; simpl; lia.
Qed.

Lemma consume_effect p p' eff :
  consume p = Some (p', eff) → pipe_inv p →
  stream p' = stream p ∧ (¬ sampling p → objects p' = objects p ∧ ¬ sampling p') ∧
  effect_ok p p' eff ∧ ((∃ c, eff = Fatal c) ∨ (weight p' < weight p)%Z).
Proof.
  intros Hstep Hinv. destruct p as [st un ch cl ob cn pp cp].
  unfold consume in Hstep; simpl in *.
  repeat case_match; simplify_eq; try done.
  all: repeat split; try done.
  all: try (by left; eauto).
  all: try (right; unfold weight; simpl; rewrite ?length_app; simpl; lia).
  all: try (intros; unfold sampling in *; simpl in *; intuition congruence).
  pose proof (inv_resolved _ _ Hinv properties eq_refl) as Hr; simpl in Hr.
  unfold slot_of, WithJSONSchema; simpl. by rewrite Hr.
Qed.

(** Either goroutine of a pipeline: the step keeps the invariant, the
    stream, and a sample that has left the range loop. *)
Lemma goroutine_step a i f p p' eff :
  goroutine a = Some (i, f) → f p = Some (p', eff) → pipe_inv p →
  pipe_inv p' ∧ stream p' = stream p ∧
  (¬ sampling p → objects p' = objects p ∧ ¬ sampling p') ∧
  effect_ok p p' eff ∧ ((∃ c, eff = Fatal c) ∨ (weight p' < weight p)%Z).
Proof.
  intros Ha Hf Hinv. destruct a; simplify_eq/=.
  - destruct (produce_effect _ _ _ Hf) as (? & Ho & Hc & ? & ?).
    split_and!; eauto using produce_inv.
    unfold sampling. rewrite Hc. done.
  - destruct (consume_effect _ _ _ Hf Hinv) as (? & ? & ? & ?).
    split_and!; eauto using consume_inv.
Qed.

(** ** Sums over the pipelines *)

Lemma total_cons (f : Pipeline → Z) p ps :
  total f (p :: ps) = (f p + total f ps)%Z.
Proof. done. Qed.

Lemma total_app (f : Pipeline → Z) ps qs :
  total f (ps ++ qs) = (total f ps + total f qs)%Z.
Proof. induction ps as [|p ps IH]; simpl; lia. Qed.

Lemma total_insert (f : Pipeline → Z) ps i p p' :
  ps !! i = Some p →
  total f (<[i := p']> ps) = (total f ps - f p + f p')%Z.
Proof.
  revert i. induction ps as [|q ps IH]; intros [|i] Hi; simplify_eq/=; try lia.
  rewrite (IH i Hi). lia.
Qed.

Lemma total_unfinished_nonneg ps : (0 ≤ total unfinished ps)%Z.
Proof.
  induction ps as [|p ps IH]; simpl; [lia|].
  unfold unfinished at 1. destruct (finished p); lia.
Qed.

Lemma total_unfinished_pos ps :
  total unfinished ps ≠ 0%Z → ∃ i p, ps !! i = Some p ∧ finished p = false.
Proof.
  induction ps as [|q ps IH]; simpl; [done|].
  destruct (finished q) eqn:Hq.
  - unfold unfinished at 1. rewrite Hq. intros H.
    destruct IH as (i & p & ? & ?); [lia|]. by exists (S i), p.
  - intros _. by exists 0, q.
Qed.

Lemma weight_nonneg p : (0 ≤ weight p)%Z.
Proof.
  unfold weight. destruct (producer p), (consumer p); simpl; lia.
Qed.

Lemma total_weight_nonneg (f : Pipeline → Z) ps :
  (∀ p, 0 ≤ f p)%Z → (0 ≤ total f ps)%Z.
Proof.
  intros Hf. induction ps as [|p ps IH]; simpl; [lia|]. specialize (Hf p). lia.
Qed.

(** ** The invariant of the command *)

Lemma alter_fmap_insert {A B} (g : A → B) (f : B → B) (l : list A) i x x' :
  l !! i = Some x → g x' = f (g x) →
  alter f i (g <$> l) = g <$> <[i := x']> l.
Proof.
  revert i. induction l as [|y l IH]; intros [|i] Hi Hg; simplify_eq/=.
  - by rewrite Hg.
  - f_equal. by apply IH.
Qed.

Lemma fmap_insert_same {A B} (g : A → B) (l : list A) i x x' :
  l !! i = Some x → g x' = g x → g <$> <[i := x']> l = g <$> l.
Proof.
  intros Hi Hg. rewrite list_fmap_insert, Hg.
  apply list_insert_id. by rewrite list_lookup_fmap, Hi.
Qed.

(** What a step of the command is: a step of the main goroutine while
    [RunE] runs, or a step of a pipeline's goroutine in a process that has
    not exited. *)
Lemma exec_cases a s s' :
  exec a s = Some s' →
  (status s = Running ∧ goroutine a = None ∧ main_step s = Some s') ∨
  (∃ i f p p' eff,
     (∀ code cause, status s ≠ Exited code cause) ∧
     goroutine a = Some (i, f) ∧ pipes s !! i = Some p ∧
     f p = Some (p', eff) ∧ s' = apply_effect i p' eff s).
Proof.
  unfold exec. intros Hexec.
  destruct (goroutine a) as [[i f]|] eqn:Ha.
  - right.
    assert (∀ code cause, status s ≠ Exited code cause) as Halive
      by (intros code cause Hs; by rewrite Hs in Hexec).
    assert (match pipes s !! i with
            | Some p => match f p with
                        | Some (p', eff) => Some (apply_effect i p' eff s)
                        | None => None
                        end
            | None => None
            end = Some s') as Hstep
      by (by destruct (status s)).
    destruct (pipes s !! i) as [p|] eqn:Hi; [|done].
    destruct (f p) as [[p' eff]|] eqn:Hf; simplify_eq.
    by exists i, f, p, p', eff.
  - left. by destruct (status s).
Qed.

Lemma exec_goroutine a s i f p p' eff :
  (∀ code cause, status s ≠ Exited code cause) →
  goroutine a = Some (i, f) → pipes s !! i = Some p → f p = Some (p', eff) →
  exec a s = Some (apply_effect i p' eff s).
Proof.
  intros Halive Ha Hi Hf. unfold exec. rewrite Ha, Hi, Hf.
  destruct (status s) as [| |code cause] eqn:Hs; [done|done|].
  by destruct (Halive code cause).
Qed.

Lemma exec_main s : status s = Running → exec ActMain s = main_step s.
Proof. intros Hs. unfold exec. by rewrite Hs. Qed.

(** What the goroutine that calls [logger.Fatal] or [logger.Fatalf] has
    met. *)
Lemma goroutine_fatal a i f p p' cause :
  goroutine a = Some (i, f) → f p = Some (p', Fatal cause) →
  p' = p ∧
  ((∃ e, cause = ReadFailed (Name (stream p)) e ∧
         readErr (stream p) = Some e ∧ producer p = PRead) ∨
   (∃ e, cause = ResolveFailed e ∧ consumer p = CResolve ∧
         Resolve (objects p) = inr e)).
Proof.
  intros Ha Hf. destruct a; simplify_eq/=.
  - unfold produce in Hf. repeat case_match; simplify_eq.
    split; [done|]. left. by eexists.
  - unfold consume in Hf. repeat case_match; simplify_eq.
    split; [done|]. right. by eexists.
Qed.

(** Only a consumer that has not called [group.Done()] attaches a schema or
    calls [group.Done()]. *)
Lemma goroutine_unfinished a i f p p' eff :
  goroutine a = Some (i, f) → f p = Some (p', eff) →
  (∃ properties, eff = Attach properties) ∨ eff = GroupDone →
  unfinished p = 1%Z.
Proof.
  intros Ha Hf Heff. destruct a; simplify_eq/=.
  - unfold produce in Hf. repeat case_match; simplify_eq; naive_solver.
  - unfold consume, unfinished, finished in *.
    repeat case_match; simplify_eq; naive_solver.
Qed.

Lemma total_lookup_le (f : Pipeline → Z) ps i p :
  (∀ q, 0 ≤ f q)%Z → ps !! i = Some p → (f p ≤ total f ps)%Z.
Proof.
  intros Hf. revert i. induction ps as [|q ps IH]; intros [|i] Hi; simplify_eq/=.
  - pose proof (total_weight_nonneg f ps Hf). lia.
  - specialize (IH i Hi). specialize (Hf q). lia.
Qed.

Lemma unfinished_nonneg p : (0 ≤ unfinished p)%Z.
Proof. unfold unfinished. destruct (finished p); lia. Qed.

Lemma start_inv (rawConnector : option Driver) :
  state_inv (todo (start rawConnector)) (start rawConnector).
Proof.
  unfold start. repeat case_match; split; simpl; try done.
Qed.

Lemma main_step_inv ss s s' :
  status s = Running → main_step s = Some s' → state_inv ss s → state_inv ss s'.
Proof.
  intros Hrun Hstep [Hp Ho Hs Hg Hb Hc Hst].
  unfold main_step in Hstep. destruct (todo s) as [|st rest] eqn:Htodo.
  - destruct (barrier s) eqn:Hbar.
    + destruct (Hb eq_refl) as [_ Hzero].
      destruct (catalog s) as [c|] eqn:Hcat; simplify_eq;
        split; simpl; rewrite ?Htodo; try done.
      * split; [done|]. destruct (Hc c eq_refl) as [_ ->]. done.
      * intros c' Hc'. by simplify_eq.
    + case_decide; simplify_eq. split; simpl; rewrite ?Htodo; try done.
      intros c Hcat. destruct (Hc c Hcat) as [? ?]. done.
  - simplify_eq. split; simpl; try done.
    + apply Forall_app_2; [done|]. apply Forall_singleton, spawn_inv.
    + rewrite fmap_app, <- app_assoc. done.
    + rewrite Hs, fmap_app, <- app_assoc. done.
    + rewrite total_app, Hg. simpl. unfold unfinished. simpl. lia.
    + intros Hbar. by destruct (Hb Hbar).
Qed.

Lemma exec_inv ss a s s' :
  exec a s = Some s' → state_inv ss s → state_inv ss s'.
Proof.
  intros Hexec Hinv.
  destruct (exec_cases _ _ _ Hexec)
    as [(Hrun & _ & Hmain)|(i & f & p & p' & eff & Halive & Ha & Hi & Hf & ->)];
    [by eapply main_step_inv|].
  destruct Hinv as [Hp Ho Hs Hg Hb Hc Hst].
  assert (pipe_inv p) as Hpi by (eapply Forall_lookup_1; eauto).
  destruct (goroutine_step _ _ _ _ _ _ Ha Hf Hpi) as (Hpi' & Hstr & _ & Heff & _).
  assert (i < length (slot_of <$> pipes s)) as Hlen
    by (rewrite length_fmap; by eapply lookup_lt_Some).
  assert ((∃ properties, eff = Attach properties) ∨ eff = GroupDone →
          barrier s = false) as Hopen.
  { intros Hk. pose proof (goroutine_unfinished _ _ _ _ _ _ Ha Hf Hk) as Hun.
    destruct (barrier s) eqn:Hbar; [|done]. destruct (Hb eq_refl) as [_ Hzero].
    pose proof (total_lookup_le unfinished _ _ _ unfinished_nonneg Hi). lia. }
  assert ((∃ properties, eff = Attach properties) ∨ eff = GroupDone →
          catalog s = None) as Hnone.
  { intros Hk. specialize (Hopen Hk). destruct (catalog s) as [c|] eqn:Hcat; [|done].
    destruct (Hc c eq_refl). congruence. }
  destruct eff as [|properties| |cause]; simpl in Heff; destruct_and?.
  4: { destruct (goroutine_fatal _ _ _ _ _ _ Ha Hf) as [-> Hcause].
       split; simpl; try done. split; [done|].
       destruct Hcause as [(e & -> & He & Hpc)|(e & -> & Hpc & He)]; simpl;
         by exists i, p. }
  2,3: assert (barrier s = false) as Hbar by eauto.
  2,3: assert (catalog s = None) as Hcat by eauto.
  all: split; simpl; try done.
  all: try (by apply Forall_insert).
  all: try (by erewrite fmap_insert_same).
  all: try (erewrite total_insert by done; lia).
  all: try (rewrite Hs, alter_app_l by done; f_equal; by eapply alter_fmap_insert).
  all: try (intros ?; congruence).
  all: destruct (status s) as [|err|code cause] eqn:Hstatus;
         [done| |by destruct (Halive code cause)].
  all: destruct Hst as [? Hst]; first [done | congruence].
Qed.

Lemma step_inv ss s s' : step s s' → state_inv ss s → state_inv ss s'.
Proof. intros [a Ha]. by eapply exec_inv. Qed.

Lemma steps_inv ss s s' : rtc step s s' → state_inv ss s → state_inv ss s'.
Proof. induction 1; eauto using step_inv. Qed.

Lemma reachable_inv (rawConnector : option Driver) s :
  reachable rawConnector s → state_inv (todo (start rawConnector)) s.
Proof. intros Hr. eapply steps_inv; [exact Hr|apply start_inv]. Qed.

Lemma reachable_pipe_inv (rawConnector : option Driver) s i p :
  reachable rawConnector s → pipes s !! i = Some p → pipe_inv p.
Proof.
  intros Hr Hi. apply reachable_inv in Hr.
  eapply Forall_lookup_1; [apply (sinv_pipes _ _ _ Hr)|done].
Qed.

(** A process that has exited takes no step. *)
Lemma exec_alive a s s' code cause : exec a s = Some s' → status s ≠ Exited code cause.
Proof. unfold exec. intros Hexec Hs. by rewrite Hs in Hexec. Qed.

Lemma ended_stuck s s' code cause :
  status s = Exited code cause → rtc step s s' → s' = s.
Proof.
  intros Hs Hsteps. destruct Hsteps as [|s1 s2 s3 [a Ha] _]; [done|].
  by destruct (exec_alive _ _ _ code cause Ha).
Qed.

(** ** Every step uses up the measure *)

Lemma measure_nonneg s : (0 ≤ measure s)%Z.
Proof.
  unfold measure, main_rank.
  pose proof (total_weight_nonneg weight (pipes s) weight_nonneg).
  assert (0 ≤ total (λ p, weight p + 1) (spawn <$> todo s))%Z
    by (apply total_weight_nonneg; intros q; pose proof (weight_nonneg q); lia).
  destruct (status s), (barrier s), (catalog s); lia.
Qed.

Lemma exec_measure ss a s s' :
  exec a s = Some s' → state_inv ss s → (measure s' < measure s)%Z.
Proof.
  intros Hexec Hinv.
  destruct (exec_cases _ _ _ Hexec)
    as [(Hrun & _ & Hmain)|(i & f & p & p' & eff & Halive & Ha & Hi & Hf & ->)].
  - unfold main_step in Hmain. unfold measure, main_rank. rewrite Hrun.
    destruct (todo s) as [|st rest] eqn:Htodo.
    + destruct (barrier s) eqn:Hbar.
      * destruct (catalog s) eqn:Hcat; simplify_eq; simpl; rewrite ?Hcat; lia.
      * case_decide; simplify_eq. simpl. destruct (catalog s); lia.
    + simplify_eq. rewrite fmap_cons. cbn [pipes todo status barrier catalog].
      rewrite total_app, !total_cons. cbn [total foldr]. lia.
  - assert (pipe_inv p) as Hpi
      by (eapply Forall_lookup_1; [apply (sinv_pipes _ _ _ Hinv)|done]).
    destruct (goroutine_step _ _ _ _ _ _ Ha Hf Hpi) as (_ & _ & _ & _ & Hw).
    assert (0 ≤ total (λ p, weight p + 1) (spawn <$> todo s))%Z
      by (apply total_weight_nonneg; intros q; pose proof (weight_nonneg q); lia).
    destruct eff as [|properties| |cause].
    4: { destruct (goroutine_fatal _ _ _ _ _ _ Ha Hf) as [-> Hcause].
         pose proof (total_lookup_le weight _ _ _ weight_nonneg Hi) as Hle.
         assert (0 < weight p)%Z as Hpos.
         { unfold weight.
           destruct Hcause as [(e & _ & _ & Hpc)|(e & _ & Hpc & _)]; rewrite Hpc;
             destruct (producer p), (consumer p); simpl; lia. }
         unfold measure, main_rank; simpl.
         destruct (status s) as [| |code cause'] eqn:Hs;
           [| |by destruct (Halive code cause')];
           destruct (barrier s), (catalog s); lia. }
    all: destruct Hw as [[c Hc]|Hw]; [done|].
    all: unfold measure, main_rank; simpl.
    all: erewrite total_insert by done.
    all: destruct (status s) as [| |code cause'] eqn:Hs;
           [| |by destruct (Halive code cause')];
           destruct (barrier s), (catalog s); lia.
Qed.

(** ** Progress of a running command *)

Lemma pipe_progress p :
  pipe_inv p → finished p = false → is_Some (consume p) ∨ is_Some (produce p).
Proof.
  pose proof recordsPerStream_eq as Hcap.
  intros Hinv Hfin. destruct p as [st un ch cl ob cn pp cp].
  unfold finished, consume, produce in *; simpl in *.
  destruct cp; try done; try (by left; repeat case_match; eauto).
  destruct ch as [|r ch]; [|by left; eauto].
  destruct cl; [by left; eauto|]. right.
  destruct pp; [| by eauto |].
  - destruct un as [|r un]; [by destruct (readErr st); eauto|].
    rewrite decide_True by (simpl; lia). by eauto.
  - by pose proof (inv_done _ _ Hinv eq_refl).
Qed.

Lemma progress ss s :
  state_inv ss s → status s = Running → ∃ s', step s s'.
Proof.
  intros Hinv Hrun.
  assert (∀ code cause, status s ≠ Exited code cause) as Halive by congruence.
  destruct (todo s) as [|st rest] eqn:Htodo.
  - destruct (barrier s) eqn:Hbar.
    { exists (default s (main_step s)). exists ActMain.
      rewrite exec_main by done. unfold main_step. rewrite Htodo, Hbar.
      by destruct (catalog s). }
    destruct (decide (group s = 0%Z)) as [Hg|Hg].
    + eexists. exists ActMain. rewrite exec_main by done.
      unfold main_step. rewrite Htodo, Hbar. by rewrite decide_True.
    + rewrite (sinv_group _ _ _ Hinv) in Hg.
      destruct (total_unfinished_pos _ Hg) as (i & p & Hi & Hfin).
      assert (pipe_inv p) as Hpi
        by (eapply Forall_lookup_1; [apply (sinv_pipes _ _ _ Hinv)|done]).
      destruct (pipe_progress p Hpi Hfin) as [[[p' eff] Hc]|[[p' eff] Hp]].
      * eexists. exists (ActConsumer i). by eapply exec_goroutine.
      * eexists. exists (ActProducer i). by eapply exec_goroutine.
  - eexists. exists ActMain. rewrite exec_main by done.
    unfold main_step. by rewrite Htodo.
Qed.

(** From every state the command can run until [RunE] has returned or the
    process has exited. *)
Lemma runs_to_end ss s :
  state_inv ss s → ∃ s', rtc step s s' ∧ status s' ≠ Running.
Proof.
  intros Hinv.
  remember (Z.to_nat (measure s)) as n eqn:Hn.
  revert s Hinv Hn. induction n as [n IH] using lt_wf_ind. intros s Hinv Hn.
  destruct (status s) eqn:Hst; try (exists s; split; [done|congruence]).
  destruct (progress ss s Hinv Hst) as [s1 Hstep].
  pose proof Hstep as [a Ha].
  pose proof (exec_measure _ _ _ _ Ha Hinv).
  pose proof (measure_nonneg s1).
  destruct (IH (Z.to_nat (measure s1)) ltac:(lia) s1) as (s' & Hsteps & Hend);
    [by eapply step_inv|done|].
  exists s'. split; [|done]. by eapply rtc_l.
Qed.

(** ** Following one pipeline along a run *)

Lemma exec_pipe ss a s s' i p :
  state_inv ss s → exec a s = Some s' → pipes s !! i = Some p →
  ∃ p', pipes s' !! i = Some p' ∧ stream p' = stream p ∧
        (¬ sampling p → objects p' = objects p ∧ ¬ sampling p').
Proof.
  intros Hinv Hexec Hi.
  destruct (exec_cases _ _ _ Hexec)
    as [(Hrun & _ & Hmain)|(j & f & q & q' & eff & Halive & Ha & Hj & Hf & ->)].
  - unfold main_step in Hmain.
    destruct (todo s); [destruct (barrier s); [destruct (catalog s)|case_decide]|];
      simplify_eq/=; try (by exists p).
    exists p. split; [|done]. apply lookup_app_l_Some. done.
  - assert (pipe_inv q) as Hq
      by (eapply Forall_lookup_1; [apply (sinv_pipes _ _ _ Hinv)|done]).
    destruct (goroutine_step _ _ _ _ _ _ Ha Hf Hq) as (_ & Hstr & Hobj & Heff & _).
    destruct (decide (i = j)) as [->|Hne].
    + simplify_eq. destruct eff; simpl in *;
        try (exists q'; split; [apply list_lookup_insert_eq; by eapply lookup_lt_Some|done]).
      subst. by eexists.
    + destruct eff; simpl; try (exists p; by rewrite list_lookup_insert_ne).
      by exists p.
Qed.

Lemma steps_pipe ss s s' i p :
  state_inv ss s → rtc step s s' → pipes s !! i = Some p →
  ∃ p', pipes s' !! i = Some p' ∧ stream p' = stream p ∧
        (¬ sampling p → objects p' = objects p ∧ ¬ sampling p').
Proof.
  intros Hinv Hsteps. revert p Hinv.
  induction Hsteps as [s|s s1 s2 [a Ha] _ IH]; intros p Hinv Hi.
  - by exists p.
  - destruct (exec_pipe _ _ _ _ _ _ Hinv Ha Hi) as (p1 & Hi1 & Hstr1 & Hobj1).
    destruct (IH p1 (exec_inv _ _ _ _ Ha Hinv) Hi1) as (p2 & Hi2 & Hstr2 & Hobj2).
    exists p2. split_and!; [done|congruence|].
    intros Hs. destruct (Hobj1 Hs) as [? Hs1]. destruct (Hobj2 Hs1). split; congruence.
Qed.

Lemma run_steps sched s s' : run sched s = Some s' → rtc step s s'.
Proof.
  revert s. induction sched as [|a sched IH]; intros s Hrun; simplify_eq/=; [done|].
  destruct (exec a s) as [s1|] eqn:Ha; [|done].
  eapply rtc_l; [by exists a|by apply IH].
Qed.

Lemma run_reachable (rawConnector : option Driver) sched s :
  run sched (start rawConnector) = Some s → reachable rawConnector s.
Proof. apply run_steps. Qed.

(** ** A sampling loop can always be run to its end *)

(** While the consumer is in its range loop, one of the two goroutines can
    move, and it moves quietly unless the read fails. *)
Lemma sampling_progress p :
  pipe_inv p → sampling p → readErr (stream p) = None →
  (∃ p', consume p = Some (p', Quiet)) ∨ (∃ p', produce p = Some (p', Quiet)).
Proof.
  pose proof recordsPerStream_eq as Hcap.
  intros Hinv Hs Herr. destruct p as [st un ch cl ob cn pp cp].
  unfold sampling, consume, produce in *; simpl in *.
  destruct Hs as [->| ->]; [|left; case_decide; eauto].
  destruct ch as [|r ch]; [|by left; eauto].
  destruct cl; [by left; eauto|]. right.
  destruct pp; [| by eauto |].
  - destruct un as [|r un]; [rewrite Herr; by eauto|].
    rewrite decide_True by (simpl; lia). by eauto.
  - by pose proof (inv_done _ _ Hinv eq_refl).
Qed.

Lemma sampling_completes ss s i p :
  state_inv ss s → status s = Running → pipes s !! i = Some p →
  readErr (stream p) = None →
  ∃ s' p', rtc step s s' ∧ status s' = Running ∧ pipes s' !! i = Some p' ∧
           stream p' = stream p ∧ ¬ sampling p'.
Proof.
  intros Hinv Hrun Hi Herr.
  remember (Z.to_nat (weight p)) as n eqn:Hn.
  revert s p Hinv Hrun Hi Herr Hn.
  induction n as [n IH] using lt_wf_ind. intros s p Hinv Hrun Hi Herr Hn.
  assert (pipe_inv p) as Hp
    by (eapply Forall_lookup_1; [apply (sinv_pipes _ _ _ Hinv)|done]).
  destruct (consumer p) eqn:Hc;
    try (exists s, p; split_and!; try done; unfold sampling; rewrite Hc;
         intros [?|?]; congruence).
  all: assert (sampling p) as Hs by (unfold sampling; rewrite Hc; auto).
  all: assert (∃ a p', goroutine a = Some (i, (λ q, if a is ActProducer _ then produce q else consume q))
                       ∧ (if a is ActProducer _ then produce p else consume p) = Some (p', Quiet))
         as (a & p' & Ha & Hf)
         by (destruct (sampling_progress p Hp Hs Herr) as [[p' H]|[p' H]];
             [exists (ActConsumer i), p'|exists (ActProducer i), p']; done).
  all: assert (exec a s = Some (apply_effect i p' Quiet s)) as Hexec
         by (eapply exec_goroutine; [congruence|exact Ha|exact Hi|];
             destruct a; simplify_eq/=; done).
  all: assert ((weight p' < weight p)%Z ∧ stream p' = stream p) as [Hw Hstr]
         by (destruct a; simplify_eq/=;
             [destruct (produce_effect _ _ _ Hf) as (? & _ & _ & _ & [[? ?]|?])
             |destruct (consume_effect _ _ _ Hf Hp) as (? & _ & _ & [[? ?]|?])]; done).
  all: pose proof (weight_nonneg p'); pose proof (weight_nonneg p).
  all: destruct (IH (Z.to_nat (weight p')) ltac:(lia) (apply_effect i p' Quiet s) p')
         as (s' & p'' & Hsteps & ? & ? & ? & ?);
         [by eapply exec_inv|done
         |simpl; apply list_lookup_insert_eq; by eapply lookup_lt_Some
         |congruence|done|].
  all: exists s', p''; split_and!; try done; try congruence.
  all: eapply rtc_l; [by exists a|done].
Qed.

(** ** Runs without failures *)

(** What the consumer has appended so far is a prefix of the source. *)
Lemma sample_prefix p : pipe_inv p → objects p `prefix_of` source (stream p).
Proof. intros Hinv. rewrite <- (inv_split _ _ Hinv). by eexists. Qed.

Lemma exec_no_failure ss a s s' :
  state_inv ss s → no_failure ss → exec a s = Some s' →
  (status s = Running ∨ status s = Returned None) →
  status s' = Running ∨ status s' = Returned None.
Proof.
  intros Hinv Hno Hexec Hstatus.
  destruct (exec_cases _ _ _ Hexec)
    as [(Hrun & _ & Hmain)|(i & f & p & p' & eff & Halive & Ha & Hi & Hf & ->)].
  - unfold main_step in Hmain.
    destruct (todo s); [destruct (barrier s); [destruct (catalog s)|case_decide]|];
      simplify_eq/=; auto.
  - destruct eff; simpl; auto. exfalso.
    assert (stream p ∈ ss) as Hin.
    { rewrite <- (sinv_order _ _ _ Hinv). apply elem_of_app. left.
      apply list_elem_of_fmap. exists p. split; [done|].
      by eapply list_elem_of_lookup_2. }
    destruct (Hno _ Hin) as [Hread Hres].
    destruct (goroutine_fatal _ _ _ _ _ _ Ha Hf)
      as [_ [(e & _ & He & _)|(e & _ & _ & He)]]; [congruence|].
    assert (pipe_inv p) as Hp
      by (eapply Forall_lookup_1; [apply (sinv_pipes _ _ _ Hinv)|done]).
    destruct (Hres (objects p) (sample_prefix p Hp)) as [? ?]. congruence.
Qed.

Lemma steps_no_failure ss s s' :
  rtc step s s' → state_inv ss s → no_failure ss →
  (status s = Running ∨ status s = Returned None) →
  status s' = Running ∨ status s' = Returned None.
Proof.
  induction 1 as [s|s s1 s2 [a Ha] Hsteps IH]; intros Hinv Hno Hrun; [auto|].
  apply IH; eauto using exec_inv, exec_no_failure.
Qed.

Lemma completes ss s :
  state_inv ss s → no_failure ss → status s = Running →
  ∃ s', rtc step s s' ∧ status s' = Returned None ∧ catalog s' = Some (streams s').
Proof.
  intros Hinv Hno Hrun.
  destruct (runs_to_end ss s Hinv) as (s' & Hsteps & Hend).
  exists s'. split; [done|].
  destruct (steps_no_failure _ _ _ Hsteps Hinv Hno (or_introl Hrun)) as [?|Hret];
    [done|].
  split; [done|].
  pose proof (sinv_status _ _ _ (steps_inv _ _ _ Hsteps Hinv)) as Hst.
  rewrite Hret in Hst. tauto.
Qed.

Lemma total_unfinished_zero ps :
  total unfinished ps = 0%Z → Forall (λ p, finished p = true) ps.
Proof.
  induction ps as [|p ps IH]; [constructor|].
  rewrite total_cons. pose proof (total_unfinished_nonneg ps).
  unfold unfinished at 1. destruct (finished p) eqn:Hp; [|lia].
  intros Hz. constructor; [done|]. apply IH. lia.
Qed.

Lemma after_reachable (rawConnector : option Driver) sched :
  reachable rawConnector (after rawConnector sched).
Proof.
  unfold after. destruct (run sched (start rawConnector)) as [s|] eqn:Hrun; simpl.
  - by eapply run_reachable.
  - apply rtc_refl.
Qed.

(** ** The sample of one stream *)

(** The sample never holds more than twice [recordsPerStream] records:
    [recordsPerStream] received before the channel is closed, and what the
    channel held at that moment. *)
Lemma sample_within_twice_cap (rawConnector : option Driver) s i p :
  reachable rawConnector s → pipes s !! i = Some p →
  length (objects p) ≤ 2 * recordsPerStream.
Proof.
  intros Hr Hi. pose proof (reachable_pipe_inv _ _ _ _ Hr Hi) as Hinv.
  pose proof (inv_bound _ _ Hinv). pose proof (inv_count _ _ Hinv). lia.
Qed.

(** Once the range loop has ended, the sample is the whole source or holds
    at least [recordsPerStream] records. *)
Lemma sample_whole_or_cap p :
  pipe_inv p → ¬ sampling p →
  objects p = source (stream p) ∨ recordsPerStream ≤ length (objects p).
Proof.
  intros Hinv Hs.
  destruct (inv_drained _ _ Hinv Hs) as [Hcl Hch].
  destruct (inv_closed _ _ Hinv Hcl) as [[Hun _]|Hcap].
  - left. rewrite <- (inv_split _ _ Hinv), Hch, Hun. by rewrite !app_nil_r.
  - right. by rewrite <- (inv_count _ _ Hinv).
Qed.


(** * The claims *)

(** C2, as the code has it.  When the process has exited through a failure,
    no catalog has been logged, unless the failure is the failed read of a
    stream whose consumer had sampled at least [recordsPerStream] records
    and finished: the wait group joins the consumers only, and such a read
    can fail after [group.Wait()] has returned.  A sample that cannot be
    resolved, a failed read of a shorter stream and the failures before the
    loop always prevent the catalog.  After the exit nothing is logged. *)
Theorem failure_emits_no_catalog_unless_read_is_late
    (rawConnector : option Driver) s code cause :
  reachable rawConnector s → status s = Exited code cause →
  (∀ c, catalog s = Some c →
     ∃ name e i p,
       cause = ReadFailed name e ∧ pipes s !! i = Some p ∧
       Name (stream p) = name ∧ readErr (stream p) = Some e ∧
       finished p = true ∧ recordsPerStream ≤ length (objects p)) ∧
  ∀ s', rtc step s s' → s' = s.
Proof.
  intros Hr Hst. pose proof (reachable_inv _ _ Hr) as Hinv. split.
  - intros c Hc.
    destruct (sinv_catalog _ _ _ Hinv c Hc) as [Hbar _].
    destruct (sinv_barrier _ _ _ Hinv Hbar) as [_ Hzero].
    rewrite (sinv_group _ _ _ Hinv) in Hzero.
    apply total_unfinished_zero in Hzero.
    pose proof (sinv_status _ _ _ Hinv) as Hstatus. rewrite Hst in Hstatus.
    destruct Hstatus as [_ Hcause].
    destruct cause as [|e|e|e| |name e|e]; simpl in Hcause;
      try (destruct Hcause; congruence).
    + destruct Hcause as (i & p & Hi & Hname & Herr & _).
      pose proof (Forall_lookup_1 _ _ _ _ Hzero Hi) as Hfin. simpl in Hfin.
      pose proof (Forall_lookup_1 _ _ _ _ (sinv_pipes _ _ _ Hinv) Hi) as Hp.
      exists name, e, i, p. split_and!; try done.
      assert (¬ sampling p) as Hs
        by (unfold finished, sampling in *; destruct (consumer p);
            intros [?|?]; congruence).
      destruct (inv_drained _ _ Hp Hs) as [Hcl _].
      destruct (inv_closed _ _ Hp Hcl) as [[_ Hnone]|Hcap]; [congruence|].
      by rewrite <- (inv_count _ _ Hp).
    + destruct Hcause as (i & p & Hi & Hpc & _).
      pose proof (Forall_lookup_1 _ _ _ _ Hzero Hi) as Hfin. simpl in Hfin.
      unfold finished in Hfin. by rewrite Hpc in Hfin.
  - intros s' Hsteps. by eapply ended_stuck.
Qed.

(** C3.  When the connector's enumeration returns no stream, the command
    fails with "no streams found" before the spawning loop: no pipeline is
    ever started, so no record is read, and nothing else happens. *)
Theorem empty_discovery_fails_before_sampling (connector : Driver) s :
  Setup connector = None → Check connector = None → Discover connector = inl [] →
  reachable (Some connector) s →
  s = halted NoStreams ∧ status s = Exited 1 NoStreams ∧ pipes s = [] ∧
  catalog s = None.
Proof.
  intros Hsetup Hcheck Hdisc Hr.
  assert (start (Some connector) = halted NoStreams) as Hstart
    by (unfold start; by rewrite Hsetup, Hcheck, Hdisc).
  unfold reachable in Hr. rewrite Hstart in Hr.
  apply (ended_stuck _ _ 1%Z NoStreams) in Hr; [|done]. by subst.
Qed.

(** C4.  For a stream whose source yields fewer than [recordsPerStream]
    records, the sample the consumer leaves its loop with is the full source
    sequence, in source order; and as long as the process runs and the read
    does not fail, the loop can be run to that point. *)
Theorem short_source_sampled_whole (rawConnector : option Driver) s i p :
  reachable rawConnector s → pipes s !! i = Some p →
  length (source (stream p)) < recordsPerStream →
  (¬ sampling p → objects p = source (stream p)) ∧
  (status s = Running → readErr (stream p) = None →
   ∃ s' p', rtc step s s' ∧ pipes s' !! i = Some p' ∧ stream p' = stream p ∧
            ¬ sampling p' ∧ objects p' = source (stream p)).
Proof.
  intros Hr Hi Hlen.
  assert (∀ q, pipe_inv q → stream q = stream p → ¬ sampling q →
               objects q = source (stream p)) as Hwhole.
  { intros q Hq Hstr Hs. rewrite <- Hstr.
    destruct (sample_whole_or_cap q Hq Hs) as [?|Hcap]; [done|].
    destruct (sample_prefix q Hq) as [k Hk].
    rewrite Hstr in Hk. rewrite Hk, length_app in Hlen. lia. }
  split.
  - intros Hs. apply Hwhole; eauto using reachable_pipe_inv.
  - intros Hrun Herr.
    destruct (sampling_completes _ s i p (reachable_inv _ _ Hr) Hrun Hi Herr)
      as (s' & p' & Hsteps & _ & Hi' & Hstr & Hs').
    exists s', p'. split_and!; try done.
    apply Hwhole; try done.
    eapply reachable_pipe_inv; [|done]. unfold reachable in *. by etrans.
Qed.


(** C6.  Resolution of a stream's sample begins only when the range loop
    has ended, and the loop ends only on a channel that is closed and
    empty; from then on, in every continuation of the run, nothing is
    appended to the sample, the channel stays empty, and the properties
    attached are those resolved from that sample. *)
Theorem resolve_starts_after_sampling_drained
    (rawConnector : option Driver) s s' i p :
  reachable rawConnector s → pipes s !! i = Some p → ¬ sampling p →
  rtc step s s' →
  closed p = true ∧ channel p = [] ∧
  ∃ p', pipes s' !! i = Some p' ∧ objects p' = objects p ∧ ¬ sampling p' ∧
        closed p' = true ∧ channel p' = [] ∧
        ∀ properties, consumer p' = CAttach properties →
                      Resolve (objects p) = inl properties.
Proof.
  intros Hr Hi Hs Hsteps.
  pose proof (reachable_inv _ _ Hr) as Hinv.
  pose proof (reachable_pipe_inv _ _ _ _ Hr Hi) as Hp.
  destruct (inv_drained _ _ Hp Hs) as [Hcl Hch]. split_and!; try done.
  destruct (steps_pipe _ _ _ _ _ Hinv Hsteps Hi) as (p' & Hi' & _ & Hobj).
  destruct (Hobj Hs) as [Ho Hs'].
  assert (pipe_inv p') as Hp'.
  { eapply reachable_pipe_inv; [|done]. unfold reachable in *. by etrans. }
  destruct (inv_drained _ _ Hp' Hs') as [Hcl' Hch'].
  exists p'. split_and!; try done.
  intros properties Hc. rewrite <- Ho. by apply (inv_resolved _ _ Hp').
Qed.

(** C8, as the code has it.  When a goroutine of a pipeline meets a failure,
    its call of [logger.Fatal] or [logger.Fatalf] ends the whole process
    with status 1 in that step.  Nothing cancels the other pipelines one by
    one, but every pipeline is left as it was at that moment and no
    goroutine, of a sibling or the main one, takes a further step. *)
Theorem failure_ends_every_pipeline s a i f p p' cause :
  (∀ code c, status s ≠ Exited code c) →
  goroutine a = Some (i, f) → pipes s !! i = Some p →
  f p = Some (p', Fatal cause) →
  ∃ s', exec a s = Some s' ∧ status s' = Exited 1 cause ∧
        pipes s' = pipes s ∧
        (∀ a', exec a' s' = None) ∧
        (∀ s'', rtc step s' s'' → s'' = s').
Proof.
  intros Halive Ha Hi Hf. exists (logger_Fatal cause s).
  split; [|split; [|split; [|split]]].
  - by rewrite (exec_goroutine _ _ _ _ _ _ _ Halive Ha Hi Hf).
  - done.
  - done.
  - intros a'. destruct (exec a' (logger_Fatal cause s)) as [s1|] eqn:Hexec; [|done].
    by destruct (exec_alive _ _ _ 1%Z cause Hexec).
  - intros s'' Hsteps. by apply (ended_stuck _ _ 1%Z cause).
Qed.

(** C9.  Each failure ends the process with status 1 through
    [logger.Fatal] or [logger.Fatalf].  Before the loop: a connector that is
    no driver, an error of [Setup], of [Check] or of [Discover], and an
    empty list of streams leave the command in the exit state, whatever is
    scheduled.  In a pipeline: a read that fails and a sample that is
    rejected make the step of that goroutine the exit.  So [RunE] returns no
    error: where it has returned, it has returned nil after the catalog was
    logged; and every exit has status 1. *)
Theorem failures_exit_1_RunE_returns_nil (rawConnector : option Driver) s :
  reachable rawConnector s →
  (rawConnector = None → s = halted NotADriver) ∧
  (∀ connector e,
     rawConnector = Some connector → Setup connector = Some e →
     s = halted (SetupFailed e)) ∧
  (∀ connector e,
     rawConnector = Some connector → Setup connector = None →
     Check connector = Some e → s = halted (CheckFailed e)) ∧
  (∀ connector e,
     rawConnector = Some connector → Setup connector = None →
     Check connector = None → Discover connector = inr e →
     s = halted (DiscoverFailed e)) ∧
  (∀ connector,
     rawConnector = Some connector → Setup connector = None →
     Check connector = None → Discover connector = inl [] →
     s = halted NoStreams) ∧
  (∀ cause, status (halted cause : State) = Exited 1 cause) ∧
  (∀ i p e,
     (∀ code c, status s ≠ Exited code c) → pipes s !! i = Some p →
     producer p = PRead → unread p = [] → readErr (stream p) = Some e →
     ∃ s', exec (ActProducer i) s = Some s' ∧
           status s' = Exited 1 (ReadFailed (Name (stream p)) e)) ∧
  (∀ i p e,
     (∀ code c, status s ≠ Exited code c) → pipes s !! i = Some p →
     consumer p = CResolve → Resolve (objects p) = inr e →
     ∃ s', exec (ActConsumer i) s = Some s' ∧ status s' = Exited 1 (ResolveFailed e)) ∧
  match status s with
  | Running => True
  | Returned err => err = None ∧ ∃ c, catalog s = Some c
  | Exited code _ => code = 1%Z
  end.
Proof.
  intros Hr.
  assert (∀ cause, start rawConnector = halted cause → s = halted cause) as Hhalt.
  { intros cause Hstart. unfold reachable in Hr. rewrite Hstart in Hr.
    by apply (ended_stuck _ _ 1%Z cause) in Hr. }
  split_and!.
  - intros ->. by apply Hhalt.
  - intros connector e -> Hsetup. apply Hhalt. unfold start. by rewrite Hsetup.
  - intros connector e -> Hsetup Hcheck. apply Hhalt. unfold start.
    by rewrite Hsetup, Hcheck.
  - intros connector e -> Hsetup Hcheck Hdisc. apply Hhalt. unfold start.
    by rewrite Hsetup, Hcheck, Hdisc.
  - intros connector -> Hsetup Hcheck Hdisc. apply Hhalt. unfold start.
    by rewrite Hsetup, Hcheck, Hdisc.
  - done.
  - intros i p e Halive Hi Hpc Hun Herr. eexists. split.
    + eapply exec_goroutine; [done|reflexivity|done|].
      unfold produce. by rewrite Hpc, Hun, Herr.
    + done.
  - intros i p e Halive Hi Hpc Hres. eexists. split.
    + eapply exec_goroutine; [done|reflexivity|done|].
      unfold consume. by rewrite Hpc, Hres.
    + done.
  - pose proof (sinv_status _ _ _ (reachable_inv _ _ Hr)) as Hinv.
    destruct (status s); [done| |tauto].
    destruct Hinv as [-> Hcat]. eauto.
Qed.

End DiscoverProofs.

(** * The claims on example runs *)

(** C1.  A stream of 200 records whose producer keeps the channel full: the
    producer fills the channel, and sends one more record between each
    receive and the test of [count] that follows it.  When the consumer
    closes the channel at [count = 100], the channel holds 100 records; the
    range loop receives them all before it ends, and the sample handed to
    [typing.Resolve] has 200 records, twice [recordsPerStream]. *)
Theorem sample_exceeds_recordsPerStream :
  let s := after Resolve (driver_of [stream_big]) (ActMain :: overrun 0) in
  run Resolve (ActMain :: overrun 0) (start (driver_of [stream_big])) = Some s ∧
  ∃ p, pipes s !! 0 = Some p ∧ consumer p = CResolve ∧
       length (source (stream p)) = 200 ∧ length (objects p) = 200 ∧
       recordsPerStream = 100.
Proof.
  split; [vm_compute; reflexivity|].
  eexists. split; [vm_compute; reflexivity|]. by vm_compute.
Qed.

(** C2, as the specification states it, fails.  A stream delivers
    [recordsPerStream] records before its read fails: the consumer receives
    them, closes the channel, resolves the sample and calls [group.Done()];
    [group.Wait()] returns and the catalog is logged; then the read returns
    its error and [logger.Fatalf] exits with status 1. *)
Lemma catalog_logged_before_late_failure :
  let s := after Resolve (driver_of [stream_late]) late_read_failure in
  run Resolve late_read_failure (start (driver_of [stream_late])) = Some s ∧
  status s = Exited 1 (ReadFailed "late" "connection reset") ∧
  catalog s =
    Some [ {| stream_name := "late"; JSONSchema := Some [("a", TD SInteger false)] |} ] ∧
  ¬ failure_prevents_catalog Resolve (driver_of [stream_late]).
Proof.
  split; [vm_compute; reflexivity|].
  split; [vm_compute; reflexivity|].
  split; [vm_compute; reflexivity|].
  intros Hclaim.
  pose proof (Hclaim (after Resolve (driver_of [stream_late]) late_read_failure) 1%Z
                (ReadFailed "late" "connection reset")
                (after_reachable Resolve _ _)) as Hnone.
  vm_compute in Hnone. specialize (Hnone eq_refl). discriminate.
Qed.

Lemma failure_emits_no_catalog_unless_read_is_late_witness :
  let s := after Resolve (driver_of [stream_ok; stream_bad]) ok_done_then_bad_fails in
  let s1 := after Resolve (driver_of [stream_late]) late_read_failure in
  (status s = Exited 1 (ReadFailed "bad" "connection reset") ∧ catalog s = None ∧
   ∀ s', rtc (step Resolve) s s' → s' = s) ∧
  (∀ c, catalog s1 = Some c →
     ∃ name e i p,
       ReadFailed "late" "connection reset" = ReadFailed name e ∧
       pipes s1 !! i = Some p ∧
       Name (stream p) = name ∧ readErr (stream p) = Some e ∧
       finished p = true ∧ recordsPerStream ≤ length (objects p)) ∧
  ∀ s', rtc (step Resolve) s1 s' → s' = s1.
Proof.
  intros s s1. split.
  - split; [vm_compute; reflexivity|].
    destruct (failure_emits_no_catalog_unless_read_is_late Resolve
                (driver_of [stream_ok; stream_bad]) s 1%Z
                (ReadFailed "bad" "connection reset")) as [Hcat Hstuck].
    + apply after_reachable.
    + vm_compute; reflexivity.
    + split; [|done].
      destruct (catalog s) as [c|] eqn:Hc; [|done].
      destruct (Hcat c eq_refl) as (name & e & i & p & Hcause & Hi & _ & _ & _ & Hlen).
      exfalso. revert Hlen.
      destruct i as [|[|i]]; vm_compute in Hi; simplify_eq;
        unfold recordsPerStream; simpl; lia.
  - apply (failure_emits_no_catalog_unless_read_is_late Resolve
             (driver_of [stream_late]) s1 1%Z (ReadFailed "late" "connection reset")).
    + apply after_reachable.
    + vm_compute; reflexivity.
Defined.

Lemma empty_discovery_fails_before_sampling_witness :
  let s := after Resolve (driver_of []) [ActMain; ActProducer 0; ActConsumer 0] in
  s = halted NoStreams ∧ status s = Exited 1 NoStreams ∧ pipes s = [] ∧
  catalog s = None.
Proof.
  apply (empty_discovery_fails_before_sampling Resolve
           {| Setup := None; Check := None; Discover := inl [] |});
    [reflexivity|reflexivity|reflexivity|].
  apply (after_reachable Resolve (driver_of [])).
Defined.

Lemma short_source_sampled_whole_witness :
  let s := after Resolve (driver_of [stream_ok]) (ActMain :: sample_all 0 2) in
  ∃ p, pipes s !! 0 = Some p ∧ consumer p = CResolve ∧
       (¬ sampling p → objects p = source (stream p)) ∧
       (status s = Running → readErr (stream p) = None →
        ∃ s' p', rtc (step Resolve) s s' ∧ pipes s' !! 0 = Some p' ∧
                 stream p' = stream p ∧ ¬ sampling p' ∧
                 objects p' = source (stream p)).
Proof.
  eexists. split; [vm_compute; reflexivity|]. split; [reflexivity|].
  apply (short_source_sampled_whole Resolve (driver_of [stream_ok])).
  - apply after_reachable.
  - vm_compute; reflexivity.
  - unfold recordsPerStream; simpl; lia.
Defined.


Lemma resolve_starts_after_sampling_drained_witness :
  let s := after Resolve (driver_of [stream_ok]) (ActMain :: sample_all 0 2) in
  let s' := after Resolve (driver_of [stream_ok]) (ActMain :: sample_all 0 2 ++ finish 0) in
  ∃ p, pipes s !! 0 = Some p ∧ consumer p = CResolve ∧
       closed p = true ∧ channel p = [] ∧
       ∃ p', pipes s' !! 0 = Some p' ∧ objects p' = objects p ∧ ¬ sampling p' ∧
             closed p' = true ∧ channel p' = [] ∧
             ∀ properties, consumer p' = CAttach properties →
                           Resolve (objects p) = inl properties.
Proof.
  intros s s'. eexists. split; [vm_compute; reflexivity|]. split; [reflexivity|].
  apply (resolve_starts_after_sampling_drained Resolve (driver_of [stream_ok]) s s' 0).
  - apply after_reachable.
  - vm_compute; reflexivity.
  - unfold sampling; simpl. intros [?|?]; discriminate.
  - apply (run_steps Resolve (finish 0)). vm_compute; reflexivity.
Defined.

(** C8, as the specification states it, fails: when the read of stream
    "bad" fails while stream "ok" has a record waiting in its channel,
    neither goroutine of "ok" can take a step. *)
Lemma siblings_do_not_continue :
  ¬ siblings_may_continue Resolve (driver_of [stream_ok; stream_bad]).
Proof.
  intros Hclaim.
  destruct (Hclaim (after Resolve (driver_of [stream_ok; stream_bad]) bad_fails_ok_in_flight)
              0 (send (record_a (VInt 1)) [record_a (VNum (3 # 2))] (spawn stream_ok))
              1%Z (ReadFailed "bad" "connection reset"))
    as (a & s' & _ & Hexec).
  - apply after_reachable.
  - vm_compute; reflexivity.
  - vm_compute; reflexivity.
  - reflexivity.
  - apply (exec_alive _ _ _ _ 1%Z (ReadFailed "bad" "connection reset")) in Hexec.
    apply Hexec. vm_compute; reflexivity.
Qed.

Lemma failure_ends_every_pipeline_witness :
  let s := after Resolve (driver_of [stream_ok; stream_bad]) ok_in_flight_bad_read in
  (∃ q, pipes s !! 0 = Some q ∧ sampling q ∧ length (channel q) = 1) ∧
  ∃ s', exec Resolve (ActProducer 1) s = Some s' ∧
        status s' = Exited 1 (ReadFailed "bad" "connection reset") ∧
        pipes s' = pipes s ∧
        (∀ a', exec Resolve a' s' = None) ∧
        (∀ s'', rtc (step Resolve) s' s'' → s'' = s').
Proof.
  intros s.
  split; [eexists; split; [vm_compute; reflexivity|split; [by left|reflexivity]]|].
  apply (failure_ends_every_pipeline Resolve s (ActProducer 1) 1 (produce (Properties:=PropertySchema))
           (send (record_a (VStr "x")) [] (spawn stream_bad))
           (send (record_a (VStr "x")) [] (spawn stream_bad))
           (ReadFailed "bad" "connection reset")).
  - intros code c. vm_compute. discriminate.
  - reflexivity.
  - vm_compute; reflexivity.
  - vm_compute; reflexivity.
Defined.

Lemma failures_exit_1_RunE_returns_nil_witness :
  let s := after Resolve driver_setup_fails [ActMain; ActProducer 0] in
  let s1 := after Resolve (driver_of [stream_ok; stream_bad]) ok_in_flight_bad_read in
  let s2 := after Resolve (driver_of [stream_ok; stream_opt]) both_done in
  (s = halted (SetupFailed "bad credentials") ∧
   status s = Exited 1 (SetupFailed "bad credentials")) ∧
  (∃ s', exec Resolve (ActProducer 1) s1 = Some s' ∧
         status s' = Exited 1 (ReadFailed "bad" "connection reset")) ∧
  (status s2 = Returned None ∧ ∃ c, catalog s2 = Some c).
Proof.
  intros s s1 s2. split; [|split].
  - destruct (failures_exit_1_RunE_returns_nil Resolve driver_setup_fails s
                (after_reachable Resolve _ _)) as (_ & Hsetup & _ & _ & _ & Hexit & _).
    rewrite (Hsetup _ _ eq_refl eq_refl). split; [done|apply Hexit].
  - destruct (failures_exit_1_RunE_returns_nil Resolve (driver_of [stream_ok; stream_bad]) s1
                (after_reachable Resolve _ _)) as (_ & _ & _ & _ & _ & _ & Hread & _).
    apply (Hread 1 (send (record_a (VStr "x")) [] (spawn stream_bad)) "connection reset"%string).
    + intros code c. vm_compute. discriminate.
    + vm_compute; reflexivity.
    + reflexivity.
    + reflexivity.
    + reflexivity.
  - destruct (failures_exit_1_RunE_returns_nil Resolve (driver_of [stream_ok; stream_opt]) s2
                (after_reachable Resolve _ _)) as (_ & _ & _ & _ & _ & _ & _ & _ & Hout).
    assert (status s2 = Returned None) as Hs by (vm_compute; reflexivity).
    rewrite Hs in Hout. by destruct Hout.
Defined.

(** * The file logger *)

Section FileLoggerProofs.

Context {Content : Type}.
Variable json_Marshal : Content → string + error.
Variable filepath_Join : string → string → string.

Local Abbreviation FileLogger := (FileLogger json_Marshal filepath_Join).

(** C10.  With an empty CONFIG_FOLDER, or with a content that cannot be
    marshalled, [FileLogger] returns an error and leaves every file as it
    was.  When it returns nil, the content was marshalled, the target file
    holds exactly the encoding, whatever it held before, and no other file
    has changed. *)
Theorem FileLogger_error_or_exact_contents
    CONFIG_FOLDER os (fs : gmap string string) content fileName fileExtension :
  let result := FileLogger CONFIG_FOLDER os fs content fileName fileExtension in
  let fullPath := filepath_Join CONFIG_FOLDER (fileName +:+ fileExtension) in
  ((CONFIG_FOLDER = ""%string ∨ ∃ err, json_Marshal content = inr err) →
   result.1 = fs ∧ is_Some result.2) ∧
  (result.2 = None →
   CONFIG_FOLDER ≠ ""%string ∧
   ∃ contentBytes,
     json_Marshal content = inl contentBytes ∧
     result.1 !! fullPath = Some contentBytes ∧
     ∀ path, path ≠ fullPath → result.1 !! path = fs !! path).
Proof.
  unfold FileLogger. simpl. split.
  - intros [->|[err Herr]].
    + rewrite decide_True by done. by eauto.
    + case_decide; [by eauto|]. rewrite Herr. by eauto.
  - case_decide; [done|].
    destruct (json_Marshal content) as [contentBytes|err]; [|done].
    destruct (OpenFile_err os); [done|].
    destruct (Write_result os); [|done]. simpl. intros _.
    split; [done|]. exists contentBytes. split_and!; [done| |].
    + by rewrite lookup_insert_eq.
    + intros path Hne. by rewrite !lookup_insert_ne.
Qed.

End FileLoggerProofs.

Lemma FileLogger_error_or_exact_contents_witness :
  let os := {| OpenFile_err := None; Write_result := WriteAll |} in
  let fs : gmap string string := {[ "cfg/stats.json"%string := "old contents"%string ]} in
  (FileLogger example_Marshal example_Join "cfg" os fs (Some "{}"%string) "stats" ".json").2
    = None ∧
  (FileLogger example_Marshal example_Join "cfg" os fs (Some "{}"%string) "stats" ".json").1
    !! "cfg/stats.json"%string = Some "{}"%string ∧
  (FileLogger example_Marshal example_Join "" os fs (Some "{}"%string) "stats" ".json").1
    = fs ∧
  (FileLogger example_Marshal example_Join "cfg" os fs None "stats" ".json").1 = fs.
Proof.
  intros os fs.
  destruct (FileLogger_error_or_exact_contents example_Marshal example_Join
              "cfg" os fs (Some "{}"%string) "stats" ".json") as [_ Hok].
  destruct (FileLogger_error_or_exact_contents example_Marshal example_Join
              "" os fs (Some "{}"%string) "stats" ".json") as [Hcfg _].
  destruct (FileLogger_error_or_exact_contents example_Marshal example_Join
              "cfg" os fs None "stats" ".json") as [Hjson _].
  split; [reflexivity|].
  destruct (Hok eq_refl) as (_ & contentBytes & Hbytes & Hfile & _).
  simpl in Hbytes. injection Hbytes as <-.
  split; [exact Hfile|].
  split; [apply Hcfg; by left|].
  apply Hjson. right. by eexists.
Defined.

(** * Schema resolution *)

Lemma first_seen_elem {A} `{EqDecision A} (seen l : list A) x :
  x ∈ first_seen seen l ↔ x ∈ l ∧ x ∉ seen.
Proof.
  revert seen. induction l as [|y l IH]; intros seen; simpl.
  - split; [by intros ?%elem_of_nil|by intros [?%elem_of_nil _]].
  - case_decide as Hy.
    + rewrite IH, elem_of_cons. split; [tauto|].
      intros [[->|?] ?]; [done|tauto].
    + rewrite !elem_of_cons, IH, elem_of_cons. split.
      * intros [->|[? ?]]; tauto.
      * intros [[->|?] ?]; [tauto|].
        destruct (decide (x = y)); tauto.
Qed.

Lemma first_seen_NoDup {A} `{EqDecision A} (seen l : list A) :
  NoDup (first_seen seen l).
Proof.
  revert seen. induction l as [|y l IH]; intros seen; simpl; [constructor|].
  case_decide; [done|]. constructor; [|done].
  rewrite first_seen_elem, elem_of_cons. tauto.
Qed.

Lemma widen_number ks :
  KNumber ∈ ks →
  KNumber ∈ widen ks ∧ KInteger ∉ widen ks ∧
  ∀ k, k ∈ widen ks → ∃ k0, k0 ∈ ks ∧ k = widen_kind k0.
Proof.
  intros Hn. unfold widen. rewrite bool_decide_eq_true_2 by done.
  split_and!.
  - apply list_elem_of_fmap. by exists KNumber.
  - intros (k & Hk & _)%list_elem_of_fmap. by destruct k.
  - intros k (k0 & -> & Hk0)%list_elem_of_fmap. by exists k0.
Qed.

Lemma present_elem occ v :
  v ∈ present occ ↔ Some v ∈ occ ∧ v ≠ VNull.
Proof.
  unfold present. rewrite list_elem_of_omap. split.
  - intros (o & Ho & Hv). destruct o as [[]|]; simplify_eq; done.
  - intros [Hv Hn]. exists (Some v). split; [done|]. by destruct v.
Qed.

Lemma field_of_name name v x : field_of name v = Some x → name ∈ names_of v.
Proof.
  destruct v; simpl; try done.
  destruct (list_find _ fields) as [[i [k z]]|] eqn:Hfind; [|done].
  intros _. apply list_find_Some in Hfind as (Hi & Hk & _). simpl in Hk. subst.
  apply list_elem_of_fmap. exists (name, z). split; [done|].
  by eapply list_elem_of_lookup_2.
Qed.

Lemma property_resolve_props resolve objs name :
  name ∈ objs ≫= names_of →
  property name (resolve_props resolve objs) = Some (resolve (field_of name <$> objs)).
Proof.
  intros Hin. unfold property, resolve_props.
  assert (name ∈ first_seen [] (objs ≫= names_of)) as Hseen
    by (apply first_seen_elem; split; [done|apply not_elem_of_nil]).
  generalize dependent (first_seen [] (objs ≫= names_of)). intros names Hseen.
  induction names as [|n names IH]; [by apply elem_of_nil in Hseen|].
  rewrite fmap_cons. simpl. case_decide as Hn; simpl in Hn.
  - by subst.
  - apply elem_of_cons in Hseen as [->|Hseen]; [done|].
    specialize (IH Hseen).
    destruct (list_find _ _) as [[i kv]|]; simpl in *; [done|discriminate].
Qed.


Lemma resolve_field_shape fuel occ :
  let kinds := first_seen [] (widen (kind_of <$> present occ)) in
  ∃ shape,
    resolve_field fuel occ = TD shape (existsb missing occ) ∧
    (kinds = [KNumber] → shape = SNumber) ∧
    (shape = SInteger → kinds = [KInteger]) ∧
    (∀ ks, shape = SUnion ks → ks = kinds ∧ 2 ≤ length kinds).
Proof.
  intros kinds. eexists. split.
  - destruct fuel; reflexivity.
  - fold kinds.
    destruct fuel; (destruct kinds as [|k [|k' rest]]; [|destruct k|destruct k]);
      simpl; split_and!; try done; intros; simplify_eq; split; simpl; (done || lia).
Qed.

Lemma kind_of_null v : kind_of v = KNull → v = VNull.
Proof. destruct v; simpl; try done. by destruct (has_fraction x). Qed.



(** * Further properties of the discover command *)

Section DiscoverFurther.

Context {RecordData Properties : Type}.
Variable Resolve : list RecordData → Properties + error.

Local Abbreviation Pipeline := (@Pipeline RecordData Properties).
Local Abbreviation State := (@State RecordData Properties).
Local Abbreviation Stream := (@Stream RecordData).
Local Abbreviation Driver := (@Driver RecordData).
Local Abbreviation start := (@start RecordData Properties).
Local Abbreviation exec := (exec Resolve).
Local Abbreviation step := (step Resolve).
Local Abbreviation run := (run Resolve).
Local Abbreviation reachable := (reachable Resolve).
Local Abbreviation pipe_inv := (pipe_inv Resolve).
Local Abbreviation state_inv := (state_inv Resolve).
Local Abbreviation slot_of := (slot_of Resolve).

Implicit Types (p q : Pipeline) (ps qs : list Pipeline) (s : State).

(** X1.  Records are conserved: at every moment of a run the sample, the
    contents of the channel and what the read has still to deliver make up
    the source, in this order.  So the sample is a prefix of the source:
    no record is lost, repeated or reordered on its way; and [count] is the
    length of the sample. *)
Theorem records_are_conserved (rawConnector : option Driver) s i p :
  reachable rawConnector s → pipes s !! i = Some p →
  objects p ++ channel p ++ unread p = source (stream p) ∧
  objects p `prefix_of` source (stream p) ∧
  count p = length (objects p).
Proof.
  intros Hr Hi. pose proof (reachable_pipe_inv Resolve _ _ _ _ Hr Hi) as Hinv.
  split_and!.
  - apply (inv_split _ _ Hinv).
  - by apply (sample_prefix Resolve).
  - apply (inv_count _ _ Hinv).
Qed.

(** X2.  However long a source is, at most twice [recordsPerStream] of its
    records are taken from the connector, and so the sample never holds
    more than that; the channel never holds more than [recordsPerStream];
    and as long as the channel is open the sample holds at most
    [recordsPerStream] records. *)
Theorem reads_at_most_twice_recordsPerStream (rawConnector : option Driver) s i p :
  reachable rawConnector s → pipes s !! i = Some p →
  length (source (stream p)) - length (unread p) ≤ 2 * recordsPerStream ∧
  length (objects p) ≤ 2 * recordsPerStream ∧
  length (channel p) ≤ recordsPerStream ∧
  (closed p = false → length (objects p) ≤ recordsPerStream).
Proof.
  intros Hr Hi. pose proof (reachable_pipe_inv Resolve _ _ _ _ Hr Hi) as Hinv.
  pose proof (inv_bound _ _ Hinv). pose proof (inv_count _ _ Hinv).
  pose proof (inv_cap _ _ Hinv). pose proof (inv_open_count _ _ Hinv).
  pose proof (f_equal length (inv_split _ _ Hinv)) as Hlen.
  rewrite !length_app in Hlen. split_and!; try lia.
  intros Hopen. specialize (H2 Hopen). lia.
Qed.

(** X3.  When the range loop of a stream has ended, its sample is the whole
    source, or it holds at least [recordsPerStream] records: a source with
    at least [recordsPerStream] records gives a sample of at least that
    many. *)
Theorem ended_sample_whole_or_full (rawConnector : option Driver) s i p :
  reachable rawConnector s → pipes s !! i = Some p → ¬ sampling p →
  (objects p = source (stream p) ∨ recordsPerStream ≤ length (objects p)) ∧
  (recordsPerStream ≤ length (source (stream p)) →
   recordsPerStream ≤ length (objects p)).
Proof.
  intros Hr Hi Hs. pose proof (reachable_pipe_inv Resolve _ _ _ _ Hr Hi) as Hinv.
  destruct (sample_whole_or_cap Resolve p Hinv Hs) as [Hw|Hc].
  - split; [by left|]. by rewrite Hw.
  - split; [by right|done].
Qed.

(** ** Every run is finite *)

Lemma run_measure ss sched s s' :
  run sched s = Some s' → state_inv ss s →
  (Z.of_nat (length sched) + measure s' ≤ measure s)%Z.
Proof.
  revert s. induction sched as [|a sched IH]; intros s Hrun Hinv; simplify_eq/=; [lia|].
  destruct (exec a s) as [s1|] eqn:Ha; [|done].
  pose proof (exec_measure Resolve _ _ _ _ Ha Hinv).
  specialize (IH s1 Hrun (exec_inv Resolve _ _ _ _ Ha Hinv)). lia.
Qed.

Lemma total_spawn (ss : list Stream) :
  total (λ p : Pipeline, weight p + 1)%Z (spawn <$> ss)
  = Z.of_nat (sum_list ((λ st, 3 * length (source st) + 7) <$> ss)).
Proof.
  induction ss as [|st ss IH]; [done|].
  rewrite !fmap_cons, total_cons, IH. unfold weight; simpl. lia.
Qed.

Lemma measure_start (rawConnector : option Driver) :
  (measure (start rawConnector) ≤ Z.of_nat (step_bound (todo (start rawConnector))))%Z.
Proof.
  unfold start.
  repeat case_match; try (unfold measure, step_bound, halted, logger_Fatal; simpl; lia).
  unfold measure, main_rank, step_bound. cbn [status todo pipes barrier].
  rewrite total_spawn. change (total weight []) with 0%Z. lia.
Qed.

(** X4.  Every run is finite, with a bound that is known when the streams
    are: a schedule that can be run from the start has at most three
    steps plus, per discovered stream, seven steps and three per record of its
    source. *)
Theorem run_length_bounded (rawConnector : option Driver) sched s :
  run sched (start rawConnector) = Some s →
  length sched ≤ step_bound (todo (start rawConnector)).
Proof.
  intros Hrun.
  pose proof (run_measure _ _ _ _ Hrun (start_inv Resolve rawConnector)).
  pose proof (measure_start rawConnector). pose proof (measure_nonneg s). lia.
Qed.

(** ** The wait group *)

Lemma total_unfinished_le ps : (total unfinished ps ≤ Z.of_nat (length ps))%Z.
Proof.
  induction ps as [|p ps IH]; [done|].
  rewrite total_cons. unfold unfinished at 1. simpl. destruct (finished p); lia.
Qed.

Lemma total_unfinished_all ps :
  Forall (λ p, finished p = true) ps → total unfinished ps = 0%Z.
Proof.
  induction 1 as [|p ps Hp _ IH]; [done|].
  rewrite total_cons, IH. unfold unfinished. by rewrite Hp.
Qed.

(** X6.  The counter of the wait group is never negative (so [group.Done()]
    never panics) and never exceeds the number of pipelines started; it is
    zero exactly when every consumer started so far has called
    [group.Done()]. *)
Theorem group_counts_unfinished_consumers (rawConnector : option Driver) s :
  reachable rawConnector s →
  (0 ≤ group s ≤ Z.of_nat (length (pipes s)))%Z ∧
  (group s = 0%Z ↔ Forall (λ p, finished p = true) (pipes s)).
Proof.
  intros Hr. pose proof (reachable_inv Resolve _ _ Hr) as Hinv.
  rewrite (sinv_group _ _ _ Hinv).
  pose proof (total_unfinished_nonneg (pipes s)).
  pose proof (total_unfinished_le (pipes s)).
  split; [lia|]. split.
  - apply total_unfinished_zero.
  - apply total_unfinished_all.
Qed.

(** ** A short stream whose read fails *)

Lemma failing_short_never_finished p e :
  pipe_inv p → readErr (stream p) = Some e →
  length (source (stream p)) < recordsPerStream →
  closed p = false ∧ finished p = false.
Proof.
  intros Hinv Herr Hlen.
  assert (closed p = false) as Hopen.
  { destruct (closed p) eqn:Hcl; [|done]. exfalso.
    destruct (inv_closed _ _ Hinv Hcl) as [[_ Hnone]|Hcap]; [congruence|].
    pose proof (f_equal length (inv_split _ _ Hinv)) as Hsplit.
    rewrite !length_app in Hsplit. pose proof (inv_count _ _ Hinv). lia. }
  split; [done|].
  unfold finished. destruct (consumer p) eqn:Hc; try done.
  exfalso. destruct (inv_drained _ _ Hinv) as [Hcl _]; [|congruence].
  unfold sampling. rewrite Hc. intros [?|?]; discriminate.
Qed.

Lemma failing_short_no_barrier ss s st e :
  state_inv ss s → st ∈ ss → readErr st = Some e →
  length (source st) < recordsPerStream → barrier s = false.
Proof.
  intros Hinv Hin Herr Hlen.
  destruct (barrier s) eqn:Hbar; [exfalso|done].
  destruct (sinv_barrier _ _ _ Hinv Hbar) as [Htodo Hgroup].
  pose proof (sinv_order _ _ _ Hinv) as Ho. rewrite Htodo, app_nil_r in Ho.
  rewrite <- Ho in Hin. apply list_elem_of_fmap in Hin as (p & -> & Hp).
  rewrite (sinv_group _ _ _ Hinv) in Hgroup.
  apply total_unfinished_zero in Hgroup.
  pose proof (sinv_pipes _ _ _ Hinv) as Hpipes.
  rewrite Forall_forall in Hgroup, Hpipes.
  destruct (failing_short_never_finished p e (Hpipes p Hp) Herr Hlen) as [_ Hfin].
  specialize (Hgroup p Hp). congruence.
Qed.

Lemma failing_short_no_catalog ss s st e :
  state_inv ss s → st ∈ ss → readErr st = Some e →
  length (source st) < recordsPerStream → catalog s = None.
Proof.
  intros Hinv Hin Herr Hlen.
  destruct (catalog s) as [c|] eqn:Hc; [exfalso|done].
  destruct (sinv_catalog _ _ _ Hinv c Hc) as [Hbar _].
  by rewrite (failing_short_no_barrier _ _ _ _ Hinv Hin Herr Hlen) in Hbar.
Qed.

Lemma failing_short_not_returned ss s st e err :
  state_inv ss s → st ∈ ss → readErr st = Some e →
  length (source st) < recordsPerStream → status s ≠ Returned err.
Proof.
  intros Hinv Hin Herr Hlen Hret.
  pose proof (sinv_status _ _ _ Hinv) as Hst. rewrite Hret in Hst.
  destruct Hst as [_ Hcat].
  by rewrite (failing_short_no_catalog _ _ _ _ Hinv Hin Herr Hlen) in Hcat.
Qed.

(** X7.  If the read of a discovered stream fails and its source has fewer
    than [recordsPerStream] records, discovery cannot succeed, whatever the
    schedule: its channel is never closed, so its consumer never calls
    [group.Done()], [RunE] never returns and no catalog is logged; and every
    run can be continued to an exit with status 1. *)
Theorem failing_short_stream_aborts (connector : Driver) ss st e s :
  Setup connector = None → Check connector = None → Discover connector = inl ss →
  st ∈ ss → readErr st = Some e → length (source st) < recordsPerStream →
  reachable (Some connector) s →
  catalog s = None ∧ (∀ err, status s ≠ Returned err) ∧
  ∃ s' cause, rtc step s s' ∧ status s' = Exited 1 cause.
Proof.
  intros Hsetup Hcheck Hdisc Hin Herr Hlen Hr.
  pose proof (reachable_inv Resolve _ _ Hr) as Hinv.
  assert (todo (start (Some connector)) = ss) as Htodo.
  { unfold start. rewrite Hsetup, Hcheck, Hdisc. by case_decide; [destruct ss|]. }
  rewrite Htodo in Hinv.
  assert (∀ s1, state_inv ss s1 → ∀ err, status s1 ≠ Returned err) as Hnot
    by (intros s1 H1 err; by eapply failing_short_not_returned).
  split_and!.
  - by eapply failing_short_no_catalog.
  - by apply Hnot.
  - destruct (runs_to_end Resolve _ s Hinv) as (s' & Hsteps & Hend).
    pose proof (steps_inv Resolve _ _ _ Hsteps Hinv) as Hinv'.
    pose proof (sinv_status _ _ _ Hinv') as Hst.
    destruct (status s') as [|err|code cause] eqn:Hs'; [done| |].
    + by destruct (Hnot s' Hinv' err).
    + exists s', cause. destruct Hst as [-> _]. done.
Qed.

(** ** The stream objects *)

(** X8.  The stream objects keep the names and the order of the
    enumeration at every moment of a run, and a stream object bears a
    schema only when the consumer of its own pipeline has attached it: the
    properties are those resolved from that pipeline's sample, never those of
    another stream. *)
Theorem streams_keep_names_and_own_schema (rawConnector : option Driver) s :
  reachable rawConnector s →
  stream_name <$> streams s = Name <$> todo (start rawConnector) ∧
  ∀ i t properties,
    streams s !! i = Some t → JSONSchema t = Some properties →
    ∃ p, pipes s !! i = Some p ∧ attached p = true ∧
         stream_name t = Name (stream p) ∧
         Resolve (objects p) = inl properties.
Proof.
  intros Hr. pose proof (reachable_inv Resolve _ _ Hr) as Hinv.
  pose proof (sinv_streams _ _ _ Hinv) as Hs.
  pose proof (sinv_order _ _ _ Hinv) as Ho. split.
  - rewrite Hs, <- Ho, !fmap_app, <- !list_fmap_compose. done.
  - intros i t properties Hi Hschema. rewrite Hs in Hi.
    apply lookup_app_Some in Hi as [Hi|[_ Hi]].
    + apply list_lookup_fmap_Some in Hi as (p & -> & Hp).
      exists p. split; [done|].
      change (JSONSchema (slot_of p))
        with (if attached p
              then match Resolve (objects p) with
                   | inl x => Some x
                   | inr _ => None
                   end
              else None) in Hschema.
      destruct (attached p) eqn:Hatt; [|done].
      destruct (Resolve (objects p)) eqn:Hres; by simplify_eq.
    + apply list_lookup_fmap_Some in Hi as (st & -> & _). done.
Qed.

(** ** The samples behind a catalog *)

(** X9.  Every schema of a logged catalog was resolved from a sample of
    its own stream that is a prefix of the source, is the whole source or
    holds at least [recordsPerStream] records, and holds at most twice
    [recordsPerStream] records. *)
Theorem catalog_samples_adequate (connector : Driver) ss s c :
  Setup connector = None → Check connector = None → Discover connector = inl ss →
  reachable (Some connector) s → catalog s = Some c →
  Forall2 (λ st t,
             ∃ sample properties,
               JSONSchema t = Some properties ∧
               Resolve sample = inl properties ∧
               sample `prefix_of` source st ∧
               (sample = source st ∨ recordsPerStream ≤ length sample) ∧
               length sample ≤ 2 * recordsPerStream) ss c.
Proof.
  intros Hsetup Hcheck Hdisc Hr Hc.
  pose proof (reachable_inv Resolve _ _ Hr) as Hinv.
  assert (todo (start (Some connector)) = ss) as Htodo.
  { unfold start. rewrite Hsetup, Hcheck, Hdisc. by case_decide; [destruct ss|]. }
  rewrite Htodo in Hinv. destruct Hinv as [Hp Ho Hs Hg Hb Hcat Hst].
  destruct (Hcat c Hc) as [Hbar ->]. destruct (Hb Hbar) as [Ht Hgz].
  rewrite Ht in Ho, Hs. simpl in Hs. rewrite app_nil_r in Ho, Hs.
  assert (Forall (λ p, finished p = true) (pipes s)) as Hfin
    by (apply total_unfinished_zero; congruence).
  rewrite Hs.
  rewrite <- Ho. apply Forall2_fmap, Forall_Forall2_diag.
  apply Forall_forall. intros p Hin.
  rewrite Forall_forall in Hp, Hfin.
  specialize (Hp p Hin). specialize (Hfin p Hin).
  assert (attached p = true) as Hatt
    by (unfold finished, attached in *; by destruct (consumer p)).
  assert (¬ sampling p) as Hs'
    by (unfold finished, sampling in *; destruct (consumer p); intros [?|?]; congruence).
  destruct (inv_attached _ _ Hp Hatt) as [properties Hres].
  exists (objects p), properties. split_and!.
  - unfold slot_of; simpl. by rewrite Hatt, Hres.
  - done.
  - by apply (sample_prefix Resolve).
  - by apply (sample_whole_or_cap Resolve).
  - pose proof (inv_bound _ _ Hp). pose proof (inv_count _ _ Hp). lia.
Qed.

End DiscoverFurther.

(** ** Example runs *)

Lemma records_are_conserved_witness :
  let s := after Resolve (driver_of [stream_ok]) one_sampled_one_waiting in
  ∃ p, pipes s !! 0 = Some p ∧ length (objects p) = 1 ∧ length (channel p) = 1 ∧
       objects p ++ channel p ++ unread p = source (stream p) ∧
       objects p `prefix_of` source (stream p) ∧
       count p = length (objects p).
Proof.
  intros s. eexists. split; [vm_compute; reflexivity|].
  split; [reflexivity|]. split; [reflexivity|].
  apply (records_are_conserved Resolve (driver_of [stream_ok]) s 0).
  - apply after_reachable.
  - vm_compute; reflexivity.
Defined.

Lemma reads_at_most_twice_recordsPerStream_witness :
  let s := after Resolve (driver_of [stream_big]) (ActMain :: overrun 0) in
  ∃ p, pipes s !! 0 = Some p ∧ length (objects p) = 200 ∧
       length (source (stream p)) - length (unread p) ≤ 2 * recordsPerStream ∧
       length (objects p) ≤ 2 * recordsPerStream ∧
       length (channel p) ≤ recordsPerStream ∧
       (closed p = false → length (objects p) ≤ recordsPerStream).
Proof.
  intros s. eexists. split; [vm_compute; reflexivity|].
  split; [vm_compute; reflexivity|].
  apply (reads_at_most_twice_recordsPerStream Resolve (driver_of [stream_big]) s 0).
  - apply after_reachable.
  - vm_compute; reflexivity.
Defined.

Lemma ended_sample_whole_or_full_witness :
  let s := after Resolve (driver_of [stream_ok]) (ActMain :: sample_all 0 2) in
  ∃ p, pipes s !! 0 = Some p ∧ consumer p = CResolve ∧
       (objects p = source (stream p) ∨ recordsPerStream ≤ length (objects p)) ∧
       (recordsPerStream ≤ length (source (stream p)) →
        recordsPerStream ≤ length (objects p)).
Proof.
  intros s. eexists. split; [vm_compute; reflexivity|]. split; [reflexivity|].
  apply (ended_sample_whole_or_full Resolve (driver_of [stream_ok]) s 0).
  - apply after_reachable.
  - vm_compute; reflexivity.
  - unfold sampling; simpl. intros [?|?]; discriminate.
Defined.

Lemma run_length_bounded_witness :
  length both_done
  ≤ step_bound (todo (@start Value PropertySchema (driver_of [stream_ok; stream_opt]))).
Proof.
  apply (run_length_bounded Resolve (driver_of [stream_ok; stream_opt]) both_done
           (after Resolve (driver_of [stream_ok; stream_opt]) both_done)).
  vm_compute; reflexivity.
Defined.

Lemma group_counts_unfinished_consumers_witness :
  let s := after Resolve (driver_of [stream_ok; stream_bad])
             ([ActMain; ActMain] ++ sample_all 0 2 ++ finish 0) in
  group s = 1%Z ∧
  (0 ≤ group s ≤ Z.of_nat (length (pipes s)))%Z ∧
  (group s = 0%Z ↔ Forall (λ p, finished p = true) (pipes s)).
Proof.
  intros s. split; [vm_compute; reflexivity|].
  apply (group_counts_unfinished_consumers Resolve (driver_of [stream_ok; stream_bad]) s).
  apply after_reachable.
Defined.

Lemma failing_short_stream_aborts_witness :
  let s := after Resolve (driver_of [stream_ok; stream_bad])
             ([ActMain; ActMain] ++ sample_all 0 2 ++ finish 0) in
  status s = Running ∧
  catalog s = None ∧ (∀ err, status s ≠ Returned err) ∧
  ∃ s' cause, rtc (step Resolve) s s' ∧ status s' = Exited 1 cause.
Proof.
  intros s. split; [vm_compute; reflexivity|].
  apply (failing_short_stream_aborts Resolve
           {| Setup := None; Check := None; Discover := inl [stream_ok; stream_bad] |}
           [stream_ok; stream_bad] stream_bad "connection reset" s).
  - reflexivity.
  - reflexivity.
  - reflexivity.
  - apply list_elem_of_further, list_elem_of_here.
  - reflexivity.
  - unfold recordsPerStream; simpl; lia.
  - apply (after_reachable Resolve (driver_of [stream_ok; stream_bad])).
Defined.

Lemma streams_keep_names_and_own_schema_witness :
  let s := after Resolve (driver_of [stream_ok; stream_bad])
             ([ActMain; ActMain] ++ sample_all 0 2 ++ finish 0) in
  streams s =
    [ {| stream_name := "ok"; JSONSchema := Some [("a"%string, TD SNumber false)] |};
      {| stream_name := "bad"; JSONSchema := None |} ] ∧
  stream_name <$> streams s
    = Name <$> todo (@start Value PropertySchema (driver_of [stream_ok; stream_bad])) ∧
  ∀ i t properties,
    streams s !! i = Some t → JSONSchema t = Some properties →
    ∃ p, pipes s !! i = Some p ∧ attached p = true ∧
         stream_name t = Name (stream p) ∧
         Resolve (objects p) = inl properties.
Proof.
  intros s. split; [vm_compute; reflexivity|].
  apply (streams_keep_names_and_own_schema Resolve (driver_of [stream_ok; stream_bad]) s).
  apply after_reachable.
Defined.

Lemma catalog_samples_adequate_witness :
  let ss := [stream_ok; stream_opt] in
  let c := [ {| stream_name := "ok"%string;
                JSONSchema := Some [("a"%string, TD SNumber false)] |};
             {| stream_name := "opt"%string;
                JSONSchema := Some [("a"%string, TD SString true)] |} ] in
  Forall2 (λ st t,
             ∃ sample properties,
               JSONSchema t = Some properties ∧
               Resolve sample = inl properties ∧
               sample `prefix_of` source st ∧
               (sample = source st ∨ recordsPerStream ≤ length sample) ∧
               length sample ≤ 2 * recordsPerStream) ss c.
Proof.
  intros ss c.
  apply (catalog_samples_adequate Resolve
           {| Setup := None; Check := None; Discover := inl ss |} ss
           (after Resolve (driver_of ss) both_done) c).
  - reflexivity.
  - reflexivity.
  - reflexivity.
  - apply (after_reachable Resolve (driver_of ss)).
  - vm_compute; reflexivity.
Defined.

(** * Further properties of the file logger *)

Section FileLoggerFurther.

Context {Content : Type}.
Variable json_Marshal : Content → string + error.
Variable filepath_Join : string → string → string.

Local Abbreviation FileLogger := (FileLogger json_Marshal filepath_Join).

(** X10.  Whatever happens (an error at any stage, or success),
    [FileLogger] leaves every file other than its target as it was. *)
Theorem FileLogger_touches_only_target
    CONFIG_FOLDER os (fs : gmap string string) content fileName fileExtension path :
  path ≠ filepath_Join CONFIG_FOLDER (fileName +:+ fileExtension) →
  (FileLogger CONFIG_FOLDER os fs content fileName fileExtension).1 !! path = fs !! path.
Proof.
  intros Hne. unfold FileLogger.
  repeat case_match; simpl; by rewrite ?lookup_insert_ne.
Qed.

(** X11.  The last write wins: when two calls for the same file both return
    nil, the file system after the second is what the second call alone
    would have left, and the file holds the encoding of the second
    content. *)
Theorem FileLogger_last_write_wins
    CONFIG_FOLDER os1 os2 (fs : gmap string string) content1 content2
    fileName fileExtension :
  let first := FileLogger CONFIG_FOLDER os1 fs content1 fileName fileExtension in
  let second := FileLogger CONFIG_FOLDER os2 first.1 content2 fileName fileExtension in
  first.2 = None → second.2 = None →
  second.1 = (FileLogger CONFIG_FOLDER os2 fs content2 fileName fileExtension).1 ∧
  ∃ contentBytes,
    json_Marshal content2 = inl contentBytes ∧
    second.1 !! filepath_Join CONFIG_FOLDER (fileName +:+ fileExtension)
      = Some contentBytes.
Proof.
  unfold FileLogger. simpl.
  destruct (decide (CONFIG_FOLDER = ""%string)); [done|].
  destruct (json_Marshal content1) as [bytes1|]; [|done].
  destruct (OpenFile_err os1); [done|].
  destruct (Write_result os1); [|done].
  destruct (json_Marshal content2) as [bytes2|]; [|done].
  destruct (OpenFile_err os2); [done|].
  destruct (Write_result os2); [|done]. simpl. intros _ _. split.
  - by rewrite !insert_insert_eq.
  - exists bytes2. split; [done|]. by rewrite lookup_insert_eq.
Qed.

End FileLoggerFurther.

Lemma FileLogger_touches_only_target_witness :
  let os := {| OpenFile_err := None; Write_result := WriteFailed 1 "disk full" |} in
  let fs : gmap string string := {[ "cfg/state.json"%string := "kept"%string ]} in
  (FileLogger example_Marshal example_Join "cfg" os fs (Some "{}"%string) "stats" ".json").1
    !! "cfg/state.json"%string = Some "kept"%string.
Proof.
  intros os fs.
  rewrite (FileLogger_touches_only_target example_Marshal example_Join
             "cfg" os fs (Some "{}"%string) "stats" ".json" "cfg/state.json").
  - reflexivity.
  - vm_compute. discriminate.
Defined.

Lemma FileLogger_last_write_wins_witness :
  let os := {| OpenFile_err := None; Write_result := WriteAll |} in
  let fs : gmap string string := ∅ in
  let first := FileLogger example_Marshal example_Join "cfg" os fs (Some "[1]"%string)
                 "stats" ".json" in
  let second := FileLogger example_Marshal example_Join "cfg" os first.1
                  (Some "[2]"%string) "stats" ".json" in
  second.1 = (FileLogger example_Marshal example_Join "cfg" os fs (Some "[2]"%string)
                "stats" ".json").1 ∧
  ∃ contentBytes,
    example_Marshal (Some "[2]"%string) = inl contentBytes ∧
    second.1 !! example_Join "cfg" ("stats" +:+ ".json") = Some contentBytes.
Proof.
  intros os fs first second.
  apply (FileLogger_last_write_wins example_Marshal example_Join
           "cfg" os os fs (Some "[1]"%string) (Some "[2]"%string) "stats" ".json").
  - reflexivity.
  - reflexivity.
Defined.

(** * The statistics logger *)

Section StatsLoggerProofs.

Variable json_Marshal : gmap string StatValue → string + error.
Variable filepath_Join : string → string → string.
Variable CONFIG_FOLDER : string.

Local Abbreviation monitor_step := (monitor_step json_Marshal filepath_Join CONFIG_FOLDER).
Local Abbreviation monitor := (monitor json_Marshal filepath_Join CONFIG_FOLDER).
Local Abbreviation tick_succeeds := (tick_succeeds json_Marshal).

Lemma monitor_app evs1 evs2 m :
  monitor (evs1 ++ evs2) m = monitor evs2 (monitor evs1 m).
Proof. revert m. induction evs1 as [|ev evs1 IH]; intros m; simpl; [done|apply IH]. Qed.

Lemma monitor_idle evs m : mon_status m ≠ Monitoring → monitor evs m = m.
Proof.
  induction evs as [|ev evs IH]; intros Hm; simpl; [done|].
  assert (monitor_step ev m = m) as ->
    by (unfold monitor_step; by destruct (mon_status m)).
  by apply IH.
Qed.

(** X12.  Monitoring ends at the first [ctx.Done()] the goroutine
    receives: whatever comes later, ticks included, changes neither the
    files nor the log. *)
Theorem monitor_stops_at_done evs1 evs2 m :
  monitor (evs1 ++ CtxDone :: evs2) m = monitor (evs1 ++ [CtxDone]) m ∧
  mon_status (monitor (evs1 ++ CtxDone :: evs2) m) ≠ Monitoring.
Proof.
  rewrite !monitor_app. simpl.
  assert (mon_status (monitor_step CtxDone (monitor evs1 m)) ≠ Monitoring) as Hst
    by (unfold monitor_step;
        destruct (mon_status (monitor evs1 m)) eqn:E; simpl; congruence).
  by rewrite monitor_idle.
Qed.

(** X13.  With CONFIG_FOLDER unset, the first tick ends the process:
    [FileLogger] fails before it touches a file, and [Fatalf] logs the
    failure and exits with status 1; later events are not served. *)
Theorem monitor_exits_without_config_folder t evs m :
  CONFIG_FOLDER = ""%string → mon_status m = Monitoring →
  monitor (TickerC t :: evs) m =
    mkMonitor (ProcessExited 1) (mon_files m)
      (mon_log m ++
       [(FatalLevel, "failed to write stats in file: config folder is not set"%string)]).
Proof.
  intros Hcfg Hm. simpl. rewrite monitor_idle.
  - unfold monitor_step, FileLogger. rewrite Hm, Hcfg. done.
  - unfold monitor_step, FileLogger. rewrite Hm, Hcfg. done.
Qed.

Lemma monitor_step_succeeds t m :
  CONFIG_FOLDER ≠ ""%string → mon_status m = Monitoring → tick_succeeds t →
  ∃ contentBytes,
    json_Marshal (stats_of t) = inl contentBytes ∧
    monitor_step (TickerC t) m =
      mkMonitor Monitoring
        (<[filepath_Join CONFIG_FOLDER "stats.json" := contentBytes]>
           (<[filepath_Join CONFIG_FOLDER "stats.json" := ""%string]> (mon_files m)))
        (mon_log m).
Proof.
  intros Hcfg Hm (Hopen & Hwrite & contentBytes & Hbytes).
  exists contentBytes. split; [done|].
  unfold monitor_step, FileLogger. rewrite Hm.
  rewrite decide_False by done. simpl. by rewrite Hbytes, Hopen, Hwrite.
Qed.

Lemma monitor_ticks_succeed ts m :
  CONFIG_FOLDER ≠ ""%string → mon_status m = Monitoring → Forall tick_succeeds ts →
  mon_status (monitor (TickerC <$> ts) m) = Monitoring ∧
  mon_log (monitor (TickerC <$> ts) m) = mon_log m ∧
  ∀ path, path ≠ filepath_Join CONFIG_FOLDER "stats.json" →
          mon_files (monitor (TickerC <$> ts) m) !! path = mon_files m !! path.
Proof.
  intros Hcfg Hm Hts. revert m Hm.
  induction Hts as [|t ts Ht _ IH]; intros m Hm; [done|].
  rewrite fmap_cons. simpl.
  destruct (monitor_step_succeeds t m Hcfg Hm Ht) as (b & _ & Hstep).
  rewrite Hstep.
  match goal with
  | |- context [monitor _ ?m1] => destruct (IH m1 eq_refl) as (Hst & Hlog & Hfiles)
  end.
  split_and!; [done|done|].
  intros path Hne. rewrite (Hfiles path Hne). simpl. by rewrite !lookup_insert_ne.
Qed.

(** X14.  As long as every tick's write succeeds, monitoring goes on and
    nothing is logged; after the last tick, the stats file holds the
    encoding of that tick's stats alone, and no other file has changed. *)
Theorem monitor_keeps_last_stats ts t m :
  CONFIG_FOLDER ≠ ""%string → mon_status m = Monitoring →
  Forall tick_succeeds ts → tick_succeeds t →
  let m' := monitor (TickerC <$> (ts ++ [t])) m in
  mon_status m' = Monitoring ∧ mon_log m' = mon_log m ∧
  (∃ contentBytes,
     json_Marshal (stats_of t) = inl contentBytes ∧
     mon_files m' !! filepath_Join CONFIG_FOLDER "stats.json" = Some contentBytes) ∧
  ∀ path, path ≠ filepath_Join CONFIG_FOLDER "stats.json" →
          mon_files m' !! path = mon_files m !! path.
Proof.
  intros Hcfg Hm Hts Ht. simpl.
  rewrite fmap_app, monitor_app. simpl.
  destruct (monitor_ticks_succeed ts m Hcfg Hm Hts) as (Hst & Hlog & Hfiles).
  destruct (monitor_step_succeeds t _ Hcfg Hst Ht) as (b & Hb & Hstep).
  rewrite Hstep. simpl. split_and!; [done|done| |].
  - exists b. split; [done|]. by rewrite lookup_insert_eq.
  - intros path Hne. rewrite !lookup_insert_ne by done. by apply Hfiles.
Qed.

(** X15.  The estimate is "Not Determined" whenever more records were
    synced than were to be synced (both counts within the range of
    [int64]), whatever the speed; and whenever the speed is not positive. *)
Theorem estimate_not_determined t :
  ((0 ≤ recordsToSync t < syncedRecords t ∧ syncedRecords t < 2 ^ 63)%Z ∨
   speed_positive t = false) →
  stats_of t !! "Estimated Remaining Time"%string
    = Some (StatText "Not Determined").
Proof.
  intros Hcase. unfold stats_of. rewrite lookup_insert_eq. do 2 f_equal.
  destruct Hcase as [[Hlt Hmax]| ->]; [|done].
  assert (int64 (recordsToSync t - syncedRecords t) < 0)%Z as Hneg.
  { unfold int64.
    replace (recordsToSync t - syncedRecords t + 2 ^ 63)%Z
      with (2 ^ 63 - (syncedRecords t - recordsToSync t))%Z by lia.
    rewrite Z.mod_small by lia. lia. }
  rewrite (proj2 (Z.leb_gt _ _) Hneg). by rewrite andb_false_r.
Qed.

End StatsLoggerProofs.

Lemma monitor_exits_without_config_folder_witness :
  monitor example_stats_Marshal example_Join ""
          [TickerC (example_tick 5); TickerC (example_tick 6); CtxDone]
          (mkMonitor Monitoring ∅ []) =
    mkMonitor (ProcessExited 1) ∅
      [(FatalLevel, "failed to write stats in file: config folder is not set"%string)].
Proof.
  apply (monitor_exits_without_config_folder example_stats_Marshal example_Join ""
           (example_tick 5) [TickerC (example_tick 6); CtxDone]
           (mkMonitor Monitoring ∅ [])).
  - reflexivity.
  - reflexivity.
Defined.

Lemma example_tick_succeeds n : tick_succeeds example_stats_Marshal (example_tick n).
Proof.
  split; [done|]. split; [done|]. exists (pretty n).
  unfold example_stats_Marshal, stats_of.
  do 4 (rewrite lookup_insert_ne by done). by rewrite lookup_insert_eq.
Qed.

Lemma monitor_keeps_last_stats_witness :
  let m' := monitor example_stats_Marshal example_Join "cfg"
              (TickerC <$> ([example_tick 1; example_tick 2] ++ [example_tick 3]))
              (mkMonitor Monitoring ∅ []) in
  mon_status m' = Monitoring ∧ mon_log m' = [] ∧
  (∃ contentBytes,
     example_stats_Marshal (stats_of (example_tick 3)) = inl contentBytes ∧
     mon_files m' !! example_Join "cfg" "stats.json" = Some contentBytes) ∧
  ∀ path, path ≠ example_Join "cfg" "stats.json" →
          mon_files m' !! path = (∅ : gmap string string) !! path.
Proof.
  apply (monitor_keeps_last_stats example_stats_Marshal example_Join "cfg"
           [example_tick 1; example_tick 2] (example_tick 3)
           (mkMonitor Monitoring ∅ [])).
  - discriminate.
  - reflexivity.
  - repeat constructor; apply example_tick_succeeds.
  - apply example_tick_succeeds.
Defined.

Lemma estimate_not_determined_witness :
  stats_of (example_tick 20) !! "Estimated Remaining Time"%string
    = Some (StatText "Not Determined").
Proof.
  apply (estimate_not_determined (example_tick 20)).
  left. simpl. lia.
Defined.

(** * The name of the log file *)

Lemma string_length_app (s1 s2 : string) :
  String.length (s1 +:+ s2) = String.length s1 + String.length s2.
Proof. induction s1 as [|c s1 IH]; simpl; [done|]. by rewrite IH. Qed.

Lemma string_app_inj_length (s1 s2 t1 t2 : string) :
  String.length s1 = String.length s2 → s1 +:+ t1 = s2 +:+ t2 → s1 = s2 ∧ t1 = t2.
Proof.
  revert s2. induction s1 as [|c s1 IH]; intros [|d s2] Hlen Heq; simplify_eq/=.
  - done.
  - destruct (IH s2 Hlen H) as [-> ->]. done.
Qed.

Lemma pad2_two_digits n m :
  (n < 100)%N → (m < 100)%N →
  String.length (pad2 n) = 2 ∧ (pad2 n = pad2 m → n = m).
Proof.
  intros Hn Hm.
  assert (forallb (λ n, (String.length (pad2 (N.of_nat n)) =? 2) &&
                        forallb (λ m, implb (String.eqb (pad2 (N.of_nat n))
                                                        (pad2 (N.of_nat m)))
                                            (n =? m)) (seq 0 100)) (seq 0 100)
          = true) as Hall by (vm_compute; reflexivity).
  rewrite forallb_forall in Hall.
  specialize (Hall (N.to_nat n)). rewrite N2Nat.id in Hall.
  pose proof (Hall ltac:(apply in_seq; lia)) as Hn'.
  apply andb_prop in Hn' as [Hlen Hinj].
  split; [by apply Nat.eqb_eq|].
  rewrite forallb_forall in Hinj.
  specialize (Hinj (N.to_nat m) ltac:(apply in_seq; lia)). rewrite N2Nat.id in Hinj.
  intros Heq. rewrite Heq, String.eqb_refl in Hinj. simpl in Hinj.
  apply Nat.eqb_eq in Hinj. lia.
Qed.

Lemma timestamp_length t :
  two_digit_fields t →
  String.length (timestamp t) = String.length (pretty (Year t)) + 15.
Proof.
  intros (Hmo & Hd & Hh & Hmi & Hs). unfold timestamp.
  rewrite !string_length_app.
  rewrite (proj1 (pad2_two_digits _ 0 Hmo eq_refl)), (proj1 (pad2_two_digits _ 0 Hd eq_refl)),
    (proj1 (pad2_two_digits _ 0 Hh eq_refl)), (proj1 (pad2_two_digits _ 0 Hmi eq_refl)),
    (proj1 (pad2_two_digits _ 0 Hs eq_refl)).
  simpl. lia.
Qed.

Lemma pad2_app_inj n m (r1 r2 : string) :
  (n < 100)%N → (m < 100)%N → pad2 n +:+ r1 = pad2 m +:+ r2 → n = m ∧ r1 = r2.
Proof.
  intros Hn Hm Heq.
  destruct (pad2_two_digits n m Hn Hm) as [Hln Hinj].
  destruct (pad2_two_digits m n Hm Hn) as [Hlm _].
  destruct (string_app_inj_length _ _ _ _ (eq_trans Hln (eq_sym Hlm)) Heq) as [Hp ->].
  split; [by apply Hinj|done].
Qed.

(** X16.  The name of the log file determines the second at which [Init]
    ran: under one CONFIG_FOLDER, two times with the same file name have
    the same year, month, day, hour, minute and second. *)
Theorem log_Filename_determines_start CONFIG_FOLDER t1 t2 :
  two_digit_fields t1 → two_digit_fields t2 →
  log_Filename CONFIG_FOLDER t1 = log_Filename CONFIG_FOLDER t2 → t1 = t2.
Proof.
  intros H1 H2 Heq. unfold log_Filename in Heq.
  apply (inj (String.app CONFIG_FOLDER)) in Heq.
  apply (inj (String.app "/logs/sync_")) in Heq.
  assert (String.length (timestamp t1) = String.length (timestamp t2)) as Hlen.
  { pose proof (f_equal String.length Heq) as Hl.
    rewrite !string_length_app in Hl. lia. }
  apply string_app_inj_length in Heq as [Hts _]; [|done].
  rewrite !timestamp_length in Hlen by done.
  unfold timestamp in Hts.
  apply string_app_inj_length in Hts as [Hy Hts]; [|lia].
  apply (inj pretty) in Hy.
  destruct H1 as (? & ? & ? & ? & ?), H2 as (? & ? & ? & ? & ?).
  apply (inj (String.app "-")) in Hts. apply pad2_app_inj in Hts as [Hmo Hts]; [|done..].
  apply (inj (String.app "-")) in Hts. apply pad2_app_inj in Hts as [Hd Hts]; [|done..].
  apply (inj (String.app "_")) in Hts. apply pad2_app_inj in Hts as [Hh Hts]; [|done..].
  apply (inj (String.app "-")) in Hts. apply pad2_app_inj in Hts as [Hmi Hts]; [|done..].
  apply (inj (String.app "-")) in Hts.
  apply (proj2 (pad2_two_digits (Second t1) (Second t2) ltac:(done) ltac:(done))) in Hts.
  destruct t1, t2; simpl in *; by subst.
Qed.

Lemma log_Filename_determines_start_witness :
  log_Filename "cfg" example_time = "cfg/logs/sync_2024-03-09_14-05-00/olake.log"%string ∧
  example_time = example_time.
Proof.
  split; [vm_compute; reflexivity|].
  apply (log_Filename_determines_start "cfg" example_time example_time).
  - unfold two_digit_fields; simpl; lia.
  - unfold two_digit_fields; simpl; lia.
  - reflexivity.
Defined.
